(** * iptables: a caching front-end over a packet-filter chain

    Shallow embedding of [src/iptables.ts] (class [IPTables]).

    The controller owns two expiring key-value stores (hosts and
    interfaces), issues shell commands through [child_process.exec] and
    can re-render the whole chain from the stores ([rebuild]).

    - The two stores are instances of [MemoryCache] from the package
      [@gibme/cache]; that class is a dependency and its code is not part
      of this repository, so the store is modelled from the specification.
    - The operating system (the clock, the shell, [which], [path.resolve])
      is an explicit environment: an oracle tells, for every command the
      controller issues, whether it fails and how long it runs.
    - [async] methods are functions in a state-and-exception monad over the
      machine (the object, the clock, the log of issued commands); a
      rejected promise is an exception, and state changes made before the
      rejection stay, as in JavaScript.
    - Time passes while a child process is awaited and between method
      calls ([advance]); the store's sweep timer is a step of its own
      ([hostStorage_sweep]) that runs between method calls. *)

From Stdlib Require Import String List Bool Arith Lia.
Import ListNotations.
Local Open Scope string_scope.
Local Open Scope nat_scope.
Local Open Scope list_scope.

(* ================================================================== *)
(** ** The expiring key-value store *)
(* ================================================================== *)

Module MemoryCache.

(** Modelled from the spec: the class [MemoryCache] of [@gibme/cache]
    (imported by [iptables.ts], not defined in this repository).  An
    entry carries its key, its value and the instant it expires at
    ([None]: never). Entries are kept in insertion order. *)
Record entry : Type := Entry {
  key : string;
  value : string;
  expiry : option nat
}.

(** Modelled from the spec: the store and its two settings, the
    time-to-live given to new entries ([0] disables expiry) and the
    period of the background sweep. *)
Record t : Type := Cache {
  stdTTL : nat;
  checkperiod : option nat;
  data : list entry
}.

(** Modelled from the spec: [new MemoryCache({stdTTL, checkperiod})];
    [checkperiod] may be left out. *)
Definition create (ttl : nat) (period : option nat) : t :=
  Cache ttl period [].

Definition with_data (c : t) (d : list entry) : t :=
  Cache (stdTTL c) (checkperiod c) d.

(** Modelled from the spec: an entry whose expiry instant has passed
    ("is the stored expiry before now?") is logically absent, swept or
    not. *)
Definition live (now : nat) (e : entry) : bool :=
  match expiry e with
  | None => true
  | Some at_ => now <=? at_
  end.

(** Modelled from the spec: the expiry given by [set], "now+TTL",
    none when the TTL is 0. *)
Definition deadline (now : nat) (c : t) : option nat :=
  if stdTTL c =? 0 then None else Some (now + stdTTL c).

(** Modelled from the spec: insert or overwrite; an overwritten key
    keeps its place in the insertion order. *)
Fixpoint put (e : entry) (l : list entry) : list entry :=
  match l with
  | [] => [e]
  | x :: r => if String.eqb (key x) (key e) then e :: r else x :: put e r
  end.

(** Modelled from the spec: [set(key, value)] "inserts or overwrites;
    resets expiry to now+TTL. Returns success." *)
Definition set (now : nat) (k v : string) (c : t) : bool * t :=
  (true, with_data c (put (Entry k v (deadline now c)) (data c))).

(** Modelled from the spec: [has]/[includes], "true iff key present
    and not expired". *)
Definition includes (now : nat) (k : string) (c : t) : bool :=
  existsb (fun e => String.eqb (key e) k && live now e) (data c).

(** Modelled from the spec: [delete(key)], "removes entry if present;
    idempotent, no error if absent". *)
Definition del (k : string) (c : t) : t :=
  with_data c (filter (fun e => negb (String.eqb (key e) k)) (data c)).

(** Modelled from the spec: [list()], "a snapshot sequence of (key,
    value) pairs in insertion order, excluding expired-but-not-yet-swept
    entries". *)
Definition list (now : nat) (c : t) : Datatypes.list (string * string) :=
  map (fun e => (key e, value e)) (filter (live now) (data c)).

(** Modelled from the spec: [clear()], "removes all entries". *)
Definition clear (c : t) : t := with_data c [].

(** Modelled from the spec: the background sweep, "for each entry
    whose expiry has passed, removes it and emits an expired
    notification carrying the key". The result is the keys notified, in
    store order, and the store after the removals. *)
Definition sweep (now : nat) (c : t) : Datatypes.list string * t :=
  (map key (filter (fun e => negb (live now e)) (data c)),
   with_data c (filter (live now) (data c))).

(** Keys are unique within a store. *)
Definition wf (c : t) : Prop := NoDup (map key (data c)).

End MemoryCache.

(* ================================================================== *)
(** ** The environment and the machine *)
(* ================================================================== *)

(** What [exec]'s callback reports about one child process: whether it
    got an error, and how long the process ran. *)
Record ExecResult : Type := {
  failed : bool;
  elapsed : nat
}.

(** The operating system as the controller sees it. [child history cmd]
    is the fate of [cmd] when it is issued after the commands of
    [history]. *)
Record Env : Type := {
  which : string -> option string;
  resolve : string -> string;
  child : list string -> string -> ExecResult
}.

(** Values thrown or passed to [reject]: the error object [exec] hands to
    its callback, and [new Error(message)]. *)
Inductive exn : Type :=
| ExecException (cmd : string)
| Error (message : string).

(** [interface Options extends RequiredOptions, Partial<OptionalOptions>];
    an absent optional field is [None]. *)
Record Options : Type := {
  chain : string;
  stdTTL : option nat;
  iptables : option string;
  family : option nat
}.

(** The events of the controller's two [on] overloads, ['error'] and
    ['expired']. *)
Inductive Event : Type :=
| EvError (error : exn)
| EvExpired (key : string).

(** The fields of an [IPTables] object; [emitted] logs its [this.emit]
    calls. *)
Record IPTables : Type := {
  options : Options;
  hostStorage : MemoryCache.t;
  ifaceStorage : MemoryCache.t;
  emitted : list Event
}.

(** The object in its world: the clock (seconds) and the commands handed
    to [exec] so far, oldest first. *)
Record Machine : Type := {
  this : IPTables;
  clock : nat;
  issued : list string
}.

Definition set_hostStorage (c : MemoryCache.t) (m : Machine) : Machine :=
  {| this := {| options := options (this m);
                hostStorage := c;
                ifaceStorage := ifaceStorage (this m);
                emitted := emitted (this m) |};
     clock := clock m; issued := issued m |}.

Definition set_ifaceStorage (c : MemoryCache.t) (m : Machine) : Machine :=
  {| this := {| options := options (this m);
                hostStorage := hostStorage (this m);
                ifaceStorage := c;
                emitted := emitted (this m) |};
     clock := clock m; issued := issued m |}.

Definition emit (ev : Event) (m : Machine) : Machine :=
  {| this := {| options := options (this m);
                hostStorage := hostStorage (this m);
                ifaceStorage := ifaceStorage (this m);
                emitted := emitted (this m) ++ [ev] |};
     clock := clock m; issued := issued m |}.

Definition issue (cmd : string) (m : Machine) : Machine :=
  {| this := this m; clock := clock m; issued := issued m ++ [cmd] |}.

Definition advance (d : nat) (m : Machine) : Machine :=
  {| this := this m; clock := clock m + d; issued := issued m |}.

(** *** Promises *)

Inductive Outcome (A : Type) : Type :=
| Resolved (a : A)
| Rejected (e : exn).
Arguments Resolved {A} a.
Arguments Rejected {A} e.

Definition Async (A : Type) : Type := Machine -> Outcome A * Machine.

Definition ret {A} (a : A) : Async A := fun m => (Resolved a, m).

Definition bind {A B} (c : Async A) (k : A -> Async B) : Async B :=
  fun m =>
    match c m with
    | (Resolved a, m') => k a m'
    | (Rejected e, m') => (Rejected e, m')
    end.

(** [try { await c } catch { h }] *)
Definition try_catch {A} (c : Async A) (h : Async A) : Async A :=
  fun m =>
    match c m with
    | (Resolved a, m') => (Resolved a, m')
    | (Rejected _, m') => h m'
    end.

Declare Scope async_scope.
Delimit Scope async_scope with async.
Notation "x <- c ;; k" := (bind c (fun x => k))
  (at level 100, c at next level, right associativity) : async_scope.
Notation "c ;; k" := (bind c (fun _ => k))
  (at level 100, right associativity) : async_scope.
Local Open Scope async_scope.

(** A template-literal slot: an absent value prints as [undefined]. *)
Definition show (o : option string) : string :=
  match o with
  | Some s => s
  | None => "undefined"
  end.

(** [a || b] on a possibly-null string: [null] and the empty string are
    falsy. *)
Definition or_else (a : option string) (b : string) : string :=
  match a with
  | Some s => if String.eqb s "" then b else s
  | None => b
  end.

(** [o ??= d] *)
Definition nullish {A} (o : option A) (d : A) : option A :=
  match o with
  | Some a => Some a
  | None => Some d
  end.

(** [exec(cmd, callback)]: the command is logged at the instant it is
    handed to the shell; its fate is the environment's. *)
Definition spawn (env : Env) (cmd : string) (m : Machine)
  : ExecResult * Machine :=
  (child env (issued m) cmd, issue cmd m).

(** [new Promise((resolve, reject) => exec(cmd, error => { if (error &&
    !nothrow) return reject(error); return resolve(); }))], awaited. *)
Definition exec (env : Env) (cmd : string) (nothrow : bool) : Async unit :=
  fun m =>
    let (r, m1) := spawn env cmd m in
    let m2 := advance (elapsed r) m1 in
    if failed r && negb nothrow
    then (Rejected (ExecException cmd), m2)
    else (Resolved tt, m2).

(** A pending promise made by [flush], [_add] or [_addInterface]: the
    executor has already called [exec]; the promise settles when the child
    process ends. *)
Record Promise : Type := {
  command : string;
  fate : ExecResult;
  quiet : bool
}.

(** [error && !nothrow] *)
Definition rejects (p : Promise) : bool := failed (fate p) && negb (quiet p).

(** Calling a promise-returning method without awaiting it: the executor
    runs at once, so the command is issued now. *)
Definition start (env : Env) (cmd : string) (nothrow : bool) (m : Machine)
  : Promise * Machine :=
  let (r, m1) := spawn env cmd m in
  ({| command := cmd; fate := r; quiet := nothrow |}, m1).

Fixpoint start_each (env : Env) (cmds : list string) (m : Machine)
  : list Promise * Machine :=
  match cmds with
  | [] => ([], m)
  | c :: rest =>
      let (p, m1) := start env c false m in
      let (ps, m2) := start_each env rest m1 in
      (p :: ps, m2)
  end.

(** Among promises started at the same instant, the one that rejects
    first (the earliest issued, when two children end together). *)
Fixpoint first_rejection (ps : list Promise) : option Promise :=
  match ps with
  | [] => None
  | p :: rest =>
      match first_rejection rest with
      | None => if rejects p then Some p else None
      | Some q =>
          if rejects p && (elapsed (fate p) <=? elapsed (fate q))
          then Some p else Some q
      end
  end.

Definition longest (ps : list Promise) : nat :=
  fold_right (fun p d => Nat.max (elapsed (fate p)) d) 0 ps.

(** [await Promise.all(promises)] for promises started at the present
    instant: rejects as soon as one does, resolves when all have. *)
Definition Promise_all (ps : list Promise) : Async unit :=
  fun m =>
    match first_rejection ps with
    | Some p => (Rejected (ExecException (command p)),
                 advance (elapsed (fate p)) m)
    | None => (Resolved tt, advance (longest ps) m)
    end.

(* ================================================================== *)
(** ** The controller: class [IPTables] *)
(* ================================================================== *)

(** [Math.ceil(stdTTL * 0.1)] on a whole number of seconds. *)
Definition ceil_tenth (n : nat) : nat := (n + 9) / 10.

(** [constructor (public readonly options: Options)]: fills the defaults
    in, throws on an unknown address family, creates the two stores. *)
Definition constructor (env : Env) (o : Options) : exn + IPTables :=
  let ttl := nullish (stdTTL o) 300 in
  let fam := nullish (family o) 4 in
  let found :=
    if match fam with Some 4 => true | _ => false end then
      inr (nullish (iptables o)
             (or_else (which env "iptables") "/usr/sbin/iptables"))
    else if match fam with Some 6 => true | _ => false end then
      inr (nullish (iptables o)
             (or_else (which env "ip6tables") "/usr/sbin/ip6tables"))
    else inl (Error "Unknown address family specified") in
  match found with
  | inl e => inl e
  | inr path =>
      let seconds := match ttl with Some n => n | None => 0 end in
      inr {| options := {| chain := chain o;
                           stdTTL := ttl;
                           iptables := Some (resolve env (show path));
                           family := fam |};
             hostStorage :=
               MemoryCache.create seconds (Some (ceil_tenth seconds));
             ifaceStorage := MemoryCache.create 0 None;
             emitted := [] |}
  end.

(** The command lines, as the template literals build them. *)
Definition flush_cmd (o : Options) : string :=
  (show (iptables o) ++ " -F " ++ chain o)%string.

Definition add_cmd (o : Options) (host jumpTarget : string) : string :=
  (show (iptables o) ++ " -A " ++ chain o
     ++ " -s " ++ host ++ " -j " ++ jumpTarget)%string.

Definition addInterface_cmd (o : Options) (iface jumpTarget : string)
  : string :=
  (show (iptables o) ++ " -A " ++ chain o
     ++ " -i " ++ iface ++ " -j " ++ jumpTarget)%string.

(** The store methods, called on [this.hostStorage] and
    [this.ifaceStorage] at the present instant. *)
Definition hostStorage_includes (k : string) : Async bool :=
  fun m =>
    (Resolved (MemoryCache.includes (clock m) k (hostStorage (this m))), m).

Definition hostStorage_set (k v : string) : Async bool :=
  fun m =>
    let (ok, c) := MemoryCache.set (clock m) k v (hostStorage (this m)) in
    (Resolved ok, set_hostStorage c m).

Definition hostStorage_del (k : string) : Async unit :=
  fun m =>
    (Resolved tt,
     set_hostStorage (MemoryCache.del k (hostStorage (this m))) m).

Definition hostStorage_list : Async (list (string * string)) :=
  fun m => (Resolved (MemoryCache.list (clock m) (hostStorage (this m))), m).

Definition hostStorage_clear : Async unit :=
  fun m =>
    (Resolved tt,
     set_hostStorage (MemoryCache.clear (hostStorage (this m))) m).

Definition ifaceStorage_includes (k : string) : Async bool :=
  fun m =>
    (Resolved (MemoryCache.includes (clock m) k (ifaceStorage (this m))), m).

Definition ifaceStorage_set (k v : string) : Async bool :=
  fun m =>
    let (ok, c) := MemoryCache.set (clock m) k v (ifaceStorage (this m)) in
    (Resolved ok, set_ifaceStorage c m).

Definition ifaceStorage_del (k : string) : Async unit :=
  fun m =>
    (Resolved tt,
     set_ifaceStorage (MemoryCache.del k (ifaceStorage (this m))) m).

Definition ifaceStorage_list : Async (list (string * string)) :=
  fun m => (Resolved (MemoryCache.list (clock m) (ifaceStorage (this m))), m).

(** [jumpTarget: JumpTarget = 'ACCEPT'] *)
Definition default_target (jumpTarget : option string) : string :=
  match jumpTarget with
  | Some t => t
  | None => "ACCEPT"
  end.

(** [protected async _add (host, jumpTarget, nothrow)] *)
Definition _add (env : Env) (host jumpTarget : string) (nothrow : bool)
  : Async unit :=
  fun m => exec env (add_cmd (options (this m)) host jumpTarget) nothrow m.

(** [protected async _addInterface (iface, jumpTarget, nothrow)] *)
Definition _addInterface (env : Env) (iface jumpTarget : string)
  (nothrow : bool) : Async unit :=
  fun m =>
    exec env (addInterface_cmd (options (this m)) iface jumpTarget) nothrow m.

(** [public async add (host, jumpTarget = 'ACCEPT')]; the call to [_add]
    leaves [nothrow] at its default, [false]. *)
Definition add (env : Env) (host : string) (jumpTarget : option string)
  : Async bool :=
  let jumpTarget := default_target jumpTarget in
  known <- hostStorage_includes host ;;
  (if negb known then _add env host jumpTarget false else ret tt) ;;
  hostStorage_set host jumpTarget.

(** [public async addInterface (iface, jumpTarget = 'ACCEPT')] *)
Definition addInterface (env : Env) (iface : string)
  (jumpTarget : option string) : Async bool :=
  let jumpTarget := default_target jumpTarget in
  known <- ifaceStorage_includes iface ;;
  (if negb known then _addInterface env iface jumpTarget false else ret tt) ;;
  ifaceStorage_set iface jumpTarget.

(** [public async flush (nothrow = false)] *)
Definition flush (env : Env) (nothrow : bool) : Async unit :=
  fun m => exec env (flush_cmd (options (this m))) nothrow m.

(** [public async flushAll ()] *)
Definition flushAll (env : Env) : Async unit :=
  flush env false ;;
  hostStorage_clear.

(** [public async keepAlive (host)]: [await this.add(host)], the second
    argument left out. *)
Definition keepAlive (env : Env) (host : string) : Async unit :=
  add env host None ;;
  ret tt.

(** The two [for ... of list] loops of [rebuild]: each turn calls [_add]
    (or [_addInterface]) with [nothrow] left at [false] and pushes the
    pending promise; nothing is awaited inside the loop. *)
Definition push_hosts (env : Env) (l : list (string * string))
  : Async (list Promise) :=
  fun m =>
    let (ps, m') :=
      start_each env
        (map (fun '(host, jumpTarget) =>
                add_cmd (options (this m)) host jumpTarget) l) m in
    (Resolved ps, m').

Definition push_ifaces (env : Env) (l : list (string * string))
  : Async (list Promise) :=
  fun m =>
    let (ps, m') :=
      start_each env
        (map (fun '(iface, jumpTarget) =>
                addInterface_cmd (options (this m)) iface jumpTarget) l) m in
    (Resolved ps, m').

(** [protected async rebuild ()] *)
Definition rebuild (env : Env) : Async bool :=
  flushed <- try_catch (flush env false ;; ret true) (ret false) ;;
  if negb flushed then ret false else
  hosts <- hostStorage_list ;;
  host_promises <- push_hosts env hosts ;;
  ifaces <- ifaceStorage_list ;;
  iface_promises <- push_ifaces env ifaces ;;
  Promise_all (host_promises ++ iface_promises) ;;
  ret true.

(** [public async delete (host)] *)
Definition delete (env : Env) (host : string) : Async bool :=
  known <- hostStorage_includes host ;;
  if negb known then ret false else
  hostStorage_del host ;;
  rebuild env.

(** [public async deleteInterface (iface)] *)
Definition deleteInterface (env : Env) (iface : string) : Async bool :=
  known <- ifaceStorage_includes iface ;;
  if negb known then ret false else
  ifaceStorage_del iface ;;
  rebuild env.

(** *** The listeners registered by the constructor *)

(** [this.hostStorage.on('error', error => this.emit('error', error))];
    the listener on [this.ifaceStorage] is the same. *)
Definition on_storage_error (error : exn) (m : Machine) : Machine :=
  emit (EvError error) m.

(** [this.hostStorage.on('expired', async (key) => await this.delete(key))];
    nobody awaits the listener, its outcome is dropped. *)
Definition on_hostStorage_expired (env : Env) (key : string) (m : Machine)
  : Machine :=
  snd (delete env key m).

(** [this.ifaceStorage.on('expired', async (key) =>
    await this.deleteInterface(key))] *)
Definition on_ifaceStorage_expired (env : Env) (key : string) (m : Machine)
  : Machine :=
  snd (deleteInterface env key m).

(** One run of the host store's sweep timer at the present instant: the
    store drops its expired entries and notifies its [expired] listener of
    each key. *)
Definition hostStorage_sweep (env : Env) (m : Machine) : Machine :=
  let (keys, c) := MemoryCache.sweep (clock m) (hostStorage (this m)) in
  fold_left (fun m' k => on_hostStorage_expired env k m') keys
            (set_hostStorage c m).

(** A machine around a freshly constructed object. *)
Definition boot (obj : IPTables) (now : nat) : Machine :=
  {| this := obj; clock := now; issued := [] |}.

(** The commands a run added to the log. *)
Definition issued_by (before after : Machine) : list string :=
  skipn (length (issued before)) (issued after).

(** *** What [rebuild] is about to do, read off a machine *)

(** The fate of the flush command issued from [m]. *)
Definition flush_fate (env : Env) (m : Machine) : ExecResult :=
  child env (issued m) (flush_cmd (options (this m))).

(** The instant at which a flush started from [m] has settled; [rebuild]
    enumerates the stores then. *)
Definition flushed_at (env : Env) (m : Machine) : nat :=
  clock m + elapsed (flush_fate env m).

(** The append commands that render the two stores of [m], hosts first,
    each store in the order [list()] enumerates it at instant [now]. *)
Definition host_rules (now : nat) (m : Machine) : list string :=
  map (fun '(host, jumpTarget) => add_cmd (options (this m)) host jumpTarget)
      (MemoryCache.list now (hostStorage (this m))).

Definition iface_rules (now : nat) (m : Machine) : list string :=
  map (fun '(iface, jumpTarget) =>
         addInterface_cmd (options (this m)) iface jumpTarget)
      (MemoryCache.list now (ifaceStorage (this m))).

(** The promises [rebuild] collects once its flush has succeeded. *)
Definition rebuild_batch (env : Env) (m : Machine) : list Promise :=
  let m1 := snd (flush env false m) in
  fst (start_each env
         (host_rules (clock m1) m1 ++ iface_rules (clock m1) m1) m1).

(** The machine in which [rebuild] awaits its batch: the stores as they
    were, the clock at the end of the flush, the flush and every append
    in the log. *)
Definition rebuilding (env : Env) (m : Machine) : Machine :=
  {| this := this m;
     clock := flushed_at env m;
     issued := issued m ++ flush_cmd (options (this m))
                 :: host_rules (flushed_at env m) m
                 ++ iface_rules (flushed_at env m) m |}.

(** The invariant of the two stores: keys are unique. *)
Definition stores_wf (m : Machine) : Prop :=
  MemoryCache.wf (hostStorage (this m)) /\
  MemoryCache.wf (ifaceStorage (this m)).

(** *** Sequences of calls *)

(** What can happen to a controller, one event at a time: a call of one of
    its public methods (awaited before the next event), a run of the host
    store's sweep timer, a store reporting a fault, or time passing. *)
Inductive Call : Type :=
| CallAdd (host : string) (jumpTarget : option string)
| CallAddInterface (iface : string) (jumpTarget : option string)
| CallDelete (host : string)
| CallDeleteInterface (iface : string)
| CallFlush (nothrow : bool)
| CallFlushAll
| CallKeepAlive (host : string)
| Sweep
| Fault (error : exn)
| Wait (seconds : nat).

(** The machine after one event; the outcome of the call is the
    caller's business, the machine keeps only its effects. *)
Definition perform (env : Env) (c : Call) (m : Machine) : Machine :=
  match c with
  | CallAdd host jumpTarget => snd (add env host jumpTarget m)
  | CallAddInterface iface jumpTarget =>
      snd (addInterface env iface jumpTarget m)
  | CallDelete host => snd (delete env host m)
  | CallDeleteInterface iface => snd (deleteInterface env iface m)
  | CallFlush nothrow => snd (flush env nothrow m)
  | CallFlushAll => snd (flushAll env m)
  | CallKeepAlive host => snd (keepAlive env host m)
  | Sweep => hostStorage_sweep env m
  | Fault error => on_storage_error error m
  | Wait seconds => advance seconds m
  end.

Definition perform_all (env : Env) (cs : list Call) (m : Machine) : Machine :=
  fold_left (fun m' c => perform env c m') cs m.

(** The command lines a controller configured by [o] can build: the flush
    of its chain and appends to its chain, all through its binary. *)
Definition own_command (o : Options) (cmd : string) : Prop :=
  cmd = flush_cmd o \/
  (exists host jumpTarget, cmd = add_cmd o host jumpTarget) \/
  (exists iface jumpTarget, cmd = addInterface_cmd o iface jumpTarget).

(** A store whose entries never expire: its TTL is 0 and no entry carries
    an expiry instant. *)
Definition eternal (c : MemoryCache.t) : Prop :=
  MemoryCache.stdTTL c = 0 /\
  Forall (fun e => MemoryCache.expiry e = None) (MemoryCache.data c).

(** [m'] comes from [m] by issuing commands of the controller's own
    only, the options untouched. *)
Definition extends (m m' : Machine) : Prop :=
  options (this m') = options (this m) /\
  exists new,
    issued m' = issued m ++ new /\
    Forall (own_command (options (this m))) new.

(** What holds of a controller at every moment of its life. *)
Definition healthy (o : Options) (m : Machine) : Prop :=
  options (this m) = o /\ stores_wf m /\ eternal (ifaceStorage (this m)).

(* ================================================================== *)
(** ** Concrete machines *)
(* ================================================================== *)

Module Scenario.

(** A system without [iptables] on the search path, in which exactly the
    commands accepted by [bad] fail; every child runs for one second. *)
Definition shell (bad : string -> bool) : Env :=
  {| which := fun _ => None;
     resolve := fun path => path;
     child := fun _ cmd => {| failed := bad cmd; elapsed := 1 |} |}.

Definition shell_ok : Env := shell (fun _ => false).

Definition flush_INPUT : string := "/usr/sbin/iptables -F INPUT".

(** The flush fails, everything else works. *)
Definition shell_no_flush : Env := shell (String.eqb flush_INPUT).

(** Every append fails, the flush works. *)
Definition shell_no_append : Env :=
  shell (fun cmd => negb (String.eqb flush_INPUT cmd)).

(** [new IPTables({ chain: 'INPUT' })] *)
Definition input_options : Options :=
  {| chain := "INPUT"; stdTTL := None; iptables := None; family := None |}.

(** [new IPTables({ chain: 'INPUT', family: 5 })] *)
Definition family5_options : Options :=
  {| chain := "INPUT"; stdTTL := None; iptables := None;
     family := Some 5 |}.

(** The object [new IPTables({ chain: 'INPUT' })] builds, at instant 0. *)
Definition fresh : Machine :=
  boot {| options := {| chain := "INPUT";
                        stdTTL := Some 300;
                        iptables := Some "/usr/sbin/iptables";
                        family := Some 4 |};
          hostStorage := MemoryCache.create 300 (Some 30);
          ifaceStorage := MemoryCache.create 0 None;
          emitted := [] |} 0.

(** After [add('8.8.8.8', 'DROP')]. *)
Definition banned : Machine :=
  snd (add shell_ok "8.8.8.8" (Some "DROP") fresh).

(** After [add('10.0.0.1')], [add('8.8.8.8', 'DROP')] and
    [addInterface('eth2', 'DROP')]. *)
Definition populated : Machine :=
  snd ((add shell_ok "10.0.0.1" None ;;
        add shell_ok "8.8.8.8" (Some "DROP") ;;
        addInterface shell_ok "eth2" (Some "DROP")) fresh).

(** [banned], 301 seconds later: the lease of 8.8.8.8 (taken at second
    1, for 300 seconds) has lapsed. *)
Definition lapsed : Machine := advance 301 banned.



(** [new IPTables({ chain: 'INPUT', iptables: '/opt/bin/iptables' })] *)
Definition custom_path_options : Options :=
  {| chain := "INPUT"; stdTTL := None;
     iptables := Some "/opt/bin/iptables"; family := None |}.

End Scenario.

(* ================================================================== *)
(** ** Facts about the store *)
(* ================================================================== *)

Module MemoryCacheFacts.
Import MemoryCache.

Lemma live_fresh now c k v : live now (Entry k v (deadline now c)) = true.
Proof.
  unfold live, deadline; simpl.
  destruct (stdTTL c =? 0); simpl; [reflexivity|].
  apply Nat.leb_le; lia.
Qed.

Lemma keys_put e l :
  In (key e) (map key l) -> map key (put e l) = map key l.
Proof.
  induction l as [|x r IH]; simpl; [tauto|].
  intros H. destruct (String.eqb_spec (key x) (key e)) as [E|N]; simpl.
  - congruence.
  - f_equal. apply IH. destruct H; [congruence|assumption].
Qed.

Lemma keys_put_new e l :
  ~ In (key e) (map key l) -> map key (put e l) = map key l ++ [key e].
Proof.
  induction l as [|x r IH]; simpl; [reflexivity|].
  intros H. destruct (String.eqb_spec (key x) (key e)) as [E|N]; simpl.
  - tauto.
  - f_equal. apply IH. tauto.
Qed.

Lemma wf_create ttl period : wf (create ttl period).
Proof. constructor. Qed.

Lemma wf_set now k v c : wf c -> wf (snd (set now k v c)).
Proof.
  unfold wf, set; simpl. intros H.
  destruct (in_dec string_dec k (map key (data c))) as [I|N].
  - rewrite keys_put; simpl; assumption.
  - rewrite keys_put_new by (simpl; assumption). simpl.
    apply NoDup_app; [assumption | repeat constructor; simpl; tauto |].
    intros a Ha [<-|[]]. tauto.
Qed.

Lemma keys_filter (f : entry -> bool) l :
  NoDup (map key l) -> NoDup (map key (filter f l)).
Proof.
  induction l as [|x r IH]; simpl; [constructor|].
  intros H; inversion H as [|? ? Hx Hr]; subst.
  destruct (f x); simpl; [constructor|]; auto.
  intros I; apply Hx. apply in_map_iff in I as (y & <- & Hy).
  apply in_map. apply filter_In in Hy. tauto.
Qed.

Lemma wf_del k c : wf c -> wf (del k c).
Proof. unfold wf, del; simpl. apply keys_filter. Qed.

Lemma wf_clear c : wf (clear c).
Proof. constructor. Qed.

Lemma wf_sweep now c : wf c -> wf (snd (sweep now c)).
Proof. unfold wf, sweep; simpl. apply keys_filter. Qed.

(** A deleted key is gone at every instant. *)
Lemma includes_del now k c : includes now k (del k c) = false.
Proof.
  unfold includes, del; simpl.
  induction (data c) as [|x r IH]; simpl; [reflexivity|].
  destruct (String.eqb (key x) k) eqn:E; simpl; [assumption|].
  rewrite E; simpl; assumption.
Qed.

Lemma includes_clear now k c : includes now k (clear c) = false.
Proof. reflexivity. Qed.

Lemma list_clear now c : list now (clear c) = [].
Proof. reflexivity. Qed.

(** With unique keys, the entries under the key of [e] after [put e]
    are [e] alone. *)
Lemma put_select e l :
  NoDup (map key l) ->
  filter (fun x => String.eqb (key x) (key e)) (put e l) = [e].
Proof.
  induction l as [|x r IH]; simpl; intros H.
  - rewrite String.eqb_refl. reflexivity.
  - inversion H as [|? ? Hx Hr]; subst.
    destruct (String.eqb_spec (key x) (key e)) as [E|N]; simpl.
    + rewrite String.eqb_refl. f_equal.
      rewrite <- E in *.
      clear IH H Hr. induction r as [|y r IH]; simpl; [reflexivity|].
      destruct (String.eqb_spec (key y) (key x)) as [E'|N'].
      * exfalso; apply Hx; simpl; left; assumption.
      * apply IH. intros I; apply Hx; simpl; right; assumption.
    + destruct (String.eqb_spec (key x) (key e)); [contradiction|].
      apply IH; assumption.
Qed.

(** After [set], the snapshot taken at the same instant holds exactly one
    pair under the key, with the value just written. *)
Lemma list_set_select now k v c :
  wf c ->
  filter (fun kv => String.eqb (fst kv) k) (list now (snd (set now k v c)))
  = [(k, v)].
Proof.
  intros H. unfold list, set; simpl.
  set (e := Entry k v (deadline now c)).
  assert (S := put_select e (data c) H).
  assert (L : live now e = true) by apply live_fresh.
  revert S. generalize (put e (data c)) as l.
  induction l as [|x r IH]; simpl; [discriminate|].
  change (key e) with k.
  destruct (String.eqb (key x) k) eqn:E; intros S.
  - injection S as -> S. rewrite L. simpl.
    rewrite String.eqb_refl. f_equal.
    clear IH E. induction r as [|y r IH]; simpl in *; [reflexivity|].
    destruct (String.eqb (key y) k) eqn:E; [discriminate|].
    destruct (live now y); simpl; [rewrite E|]; auto.
  - destruct (live now x); simpl; [rewrite E|]; auto.
Qed.

Lemma includes_set now k v c : includes now k (snd (set now k v c)) = true.
Proof.
  unfold includes, set; simpl.
  set (e := Entry k v (deadline now c)).
  assert (L : live now e = true) by apply live_fresh.
  induction (data c) as [|x r IH]; simpl.
  - rewrite String.eqb_refl, L. reflexivity.
  - destruct (String.eqb (key x) k) eqn:E; simpl.
    + rewrite String.eqb_refl, L. reflexivity.
    + rewrite E. simpl. assumption.
Qed.

(** An entry written at [now] under a finite TTL is absent once the TTL
    has elapsed, swept or not. *)
Lemma includes_after_ttl now later k v c :
  wf c -> stdTTL c <> 0 -> now + stdTTL c < later ->
  includes later k (snd (set now k v c)) = false.
Proof.
  intros H T L. unfold includes, set; simpl.
  set (e := Entry k v (deadline now c)).
  assert (S := put_select e (data c) H).
  assert (D : live later e = false).
  { unfold live, e, deadline; simpl.
    destruct (Nat.eqb_spec (stdTTL c) 0); [contradiction|].
    apply Nat.leb_gt; assumption. }
  revert S. generalize (put e (data c)) as l. change (key e) with k.
  induction l as [|x r IH]; simpl; [reflexivity|].
  destruct (String.eqb (key x) k) eqn:E; simpl; intros S.
  - injection S as -> S. rewrite D. simpl.
    clear IH E. induction r as [|y r IH]; simpl in *; [reflexivity|].
    destruct (String.eqb (key y) k) eqn:E; [discriminate|]. simpl; auto.
  - auto.
Qed.

(** A key the present instant finds absent is absent after the sweep
    too, and the sweep leaves every present key present. *)
Lemma includes_sweep now k c :
  includes now k (snd (sweep now c)) = includes now k c.
Proof.
  unfold includes, sweep; simpl.
  induction (data c) as [|x r IH]; simpl; [reflexivity|].
  destruct (live now x) eqn:L; simpl; rewrite ?L, ?IH.
  - reflexivity.
  - rewrite andb_false_r. reflexivity.
Qed.

Lemma swept_keys_expired now k c :
  wf c -> In k (fst (sweep now c)) -> includes now k c = false.
Proof.
  unfold wf, sweep, includes; simpl.
  induction (data c) as [|x r IH]; simpl; [tauto|].
  intros H; inversion H as [|? ? Hx Hr]; subst.
  destruct (live now x) eqn:L; simpl.
  - intros I. rewrite (IH Hr I), orb_false_r.
    destruct (String.eqb_spec (key x) k) as [<-|]; [|reflexivity].
    exfalso; apply Hx. apply in_map_iff in I as (y & <- & Hy).
    apply in_map. apply filter_In in Hy. tauto.
  - rewrite andb_false_r; simpl. intros [<-|I]; [|auto].
    clear IH H Hr L.
    induction r as [|y r IH]; simpl in *; [reflexivity|].
    destruct (String.eqb_spec (key y) (key x)) as [E|N]; simpl.
    + exfalso; apply Hx; left; assumption.
    + apply IH. tauto.
Qed.

End MemoryCacheFacts.

(* ================================================================== *)
(** ** Facts about promises and single commands *)
(* ================================================================== *)

Section Runs.

Variable env : Env.

Lemma exec_run cmd nothrow m :
  exec env cmd nothrow m =
  (if failed (child env (issued m) cmd) && negb nothrow
   then Rejected (ExecException cmd) else Resolved tt,
   advance (elapsed (child env (issued m) cmd)) (issue cmd m)).
Proof.
  unfold exec, spawn.
  destruct (failed (child env (issued m) cmd) && negb nothrow); reflexivity.
Qed.

Lemma flush_run nothrow m :
  flush env nothrow m =
  (if failed (flush_fate env m) && negb nothrow
   then Rejected (ExecException (flush_cmd (options (this m))))
   else Resolved tt,
   advance (elapsed (flush_fate env m))
           (issue (flush_cmd (options (this m))) m)).
Proof. unfold flush. apply exec_run. Qed.

Lemma start_each_app a b m :
  start_each env (a ++ b) m =
  let (p1, m1) := start_each env a m in
  let (p2, m2) := start_each env b m1 in
  (p1 ++ p2, m2).
Proof.
  revert m. induction a as [|c a IH]; intros m; simpl.
  - destruct (start_each env b m); reflexivity.
  - rewrite IH.
    destruct (start_each env a (issue c m)) as [p1 m1].
    destruct (start_each env b m1) as [p2 m2]. reflexivity.
Qed.

Lemma start_each_commands cmds m :
  map command (fst (start_each env cmds m)) = cmds.
Proof.
  revert m. induction cmds as [|c r IH]; intros m; simpl; [reflexivity|].
  specialize (IH (issue c m)).
  destruct (start_each env r (issue c m)) as [ps m']. simpl in *.
  congruence.
Qed.

Lemma start_each_machine cmds m :
  snd (start_each env cmds m) =
  {| this := this m; clock := clock m; issued := issued m ++ cmds |}.
Proof.
  revert m. induction cmds as [|c r IH]; intros m; simpl.
  - rewrite app_nil_r. destruct m; reflexivity.
  - specialize (IH (issue c m)).
    destruct (start_each env r (issue c m)) as [ps m']. simpl in *.
    rewrite IH, <- app_assoc. reflexivity.
Qed.

Lemma start_each_quiet cmds m :
  forall p, In p (fst (start_each env cmds m)) -> quiet p = false.
Proof.
  revert m. induction cmds as [|c r IH]; intros m p; simpl; [tauto|].
  specialize (IH (issue c m)).
  destruct (start_each env r (issue c m)) as [ps m']. simpl in *.
  intros [<-|I]; [reflexivity | auto].
Qed.

Lemma first_rejection_rejects ps p :
  first_rejection ps = Some p -> In p ps /\ rejects p = true.
Proof.
  revert p. induction ps as [|q r IH]; intros p; simpl; [discriminate|].
  destruct (first_rejection r) as [q'|].
  - destruct (rejects q) eqn:R; simpl.
    + destruct (elapsed (fate q) <=? elapsed (fate q')).
      * intros [= <-]; auto.
      * intros [= <-]. destruct (IH q' eq_refl); auto.
    + intros [= <-]. destruct (IH q' eq_refl); auto.
  - destruct (rejects q) eqn:R; [|discriminate].
    intros [= <-]; auto.
Qed.

Lemma first_rejection_none ps :
  first_rejection ps = None <-> existsb rejects ps = false.
Proof.
  induction ps as [|q r IH]; simpl; [tauto|].
  destruct (first_rejection r) as [q'|].
  - assert (E : existsb rejects r = true).
    { destruct (existsb rejects r); [reflexivity|].
      destruct IH as [_ IH]. discriminate (IH eq_refl). }
    rewrite E, orb_true_r.
    destruct (rejects q && _); split; discriminate.
  - destruct IH as [IH _]. rewrite (IH eq_refl), orb_false_r.
    destruct (rejects q); split; congruence.
Qed.

(** A flush command line is never an append command line. *)
Lemma append_inj_l (p a b : string) :
  (p ++ a)%string = (p ++ b)%string -> a = b.
Proof. induction p as [|ch p IH]; simpl; [tauto|]. intros [= E]; auto. Qed.

Lemma flush_cmd_not_add o host jumpTarget :
  flush_cmd o <> add_cmd o host jumpTarget.
Proof.
  unfold flush_cmd, add_cmd. intros E.
  apply append_inj_l in E. discriminate E.
Qed.

Lemma flush_cmd_not_addInterface o iface jumpTarget :
  flush_cmd o <> addInterface_cmd o iface jumpTarget.
Proof.
  unfold flush_cmd, addInterface_cmd. intros E.
  apply append_inj_l in E. discriminate E.
Qed.

Lemma flush_cmd_not_a_rule now m :
  ~ In (flush_cmd (options (this m)))
       (host_rules now m ++ iface_rules now m).
Proof.
  intros I. apply in_app_or in I as [I|I];
    apply in_map_iff in I as ([k v] & E & _); symmetry in E.
  - exact (flush_cmd_not_add _ _ _ E).
  - exact (flush_cmd_not_addInterface _ _ _ E).
Qed.

(** *** [rebuild], case by case *)

Lemma rebuild_batch_commands m :
  map command (rebuild_batch env m) =
  host_rules (flushed_at env m) m ++ iface_rules (flushed_at env m) m.
Proof.
  unfold rebuild_batch. rewrite start_each_commands, flush_run.
  reflexivity.
Qed.

Lemma rebuild_run m :
  rebuild env m =
  if failed (flush_fate env m)
  then (Resolved false, snd (flush env false m))
  else match first_rejection (rebuild_batch env m) with
       | Some p => (Rejected (ExecException (command p)),
                    advance (elapsed (fate p)) (rebuilding env m))
       | None => (Resolved true,
                  advance (longest (rebuild_batch env m)) (rebuilding env m))
       end.
Proof.
  unfold rebuild_batch, rebuild, bind, try_catch, ret, hostStorage_list,
    ifaceStorage_list, Promise_all, push_hosts, push_ifaces.
  rewrite flush_run.
  destruct (failed (flush_fate env m)); cbn [andb negb fst snd];
    [reflexivity|].
  set (m1 := advance _ _).
  rewrite start_each_app.
  change (map _ (MemoryCache.list (clock m1) (hostStorage (this m1))))
    with (host_rules (clock m1) m1).
  pose proof (start_each_machine (host_rules (clock m1) m1) m1) as M2.
  destruct (start_each env (host_rules (clock m1) m1) m1) as [p1 m2].
  cbn [snd] in M2. subst m2.
  cbn [this clock issued].
  change (map _ (MemoryCache.list (clock m1) (ifaceStorage (this m1))))
    with (iface_rules (clock m1) m1).
  match goal with |- context [start_each env (iface_rules _ _) ?x] =>
    pose proof (start_each_machine (iface_rules (clock m1) m1) x) as M3;
    destruct (start_each env (iface_rules (clock m1) m1) x) as [p2 m3]
  end.
  cbn [snd this clock issued] in M3. subst m3. cbn [fst].
  assert (E : {| this := this m1; clock := clock m1;
                 issued := (issued m1 ++ host_rules (clock m1) m1)
                             ++ iface_rules (clock m1) m1 |}
              = rebuilding env m).
  { unfold rebuilding, flushed_at, m1. cbn [this clock issued advance issue].
    f_equal. rewrite <- !app_assoc. reflexivity. }
  rewrite E.
  destruct (first_rejection (p1 ++ p2)); reflexivity.
Qed.

End Runs.

(* ================================================================== *)
(** ** The public methods, case by case *)
(* ================================================================== *)

Section Methods.

Variable env : Env.

Lemma rebuild_true_iff m :
  fst (rebuild env m) = Resolved true <->
  failed (flush_fate env m) = false /\
  existsb rejects (rebuild_batch env m) = false.
Proof.
  rewrite rebuild_run, <- first_rejection_none.
  destruct (failed (flush_fate env m)); simpl.
  - split; [discriminate | intros [? _]; discriminate].
  - destruct (first_rejection (rebuild_batch env m)); simpl;
      split; try discriminate; auto.
    intros [_ ?]; discriminate.
Qed.

Lemma rebuild_false_iff m :
  fst (rebuild env m) = Resolved false <-> failed (flush_fate env m) = true.
Proof.
  rewrite rebuild_run.
  destruct (failed (flush_fate env m)); simpl; [tauto|].
  destruct (first_rejection (rebuild_batch env m)); simpl;
    split; discriminate.
Qed.

Lemma rebuild_issued m :
  issued (snd (rebuild env m)) =
  issued m ++ flush_cmd (options (this m))
    :: (if failed (flush_fate env m) then []
        else host_rules (flushed_at env m) m
               ++ iface_rules (flushed_at env m) m).
Proof.
  rewrite rebuild_run, flush_run.
  destruct (failed (flush_fate env m)); simpl; [reflexivity|].
  destruct (first_rejection (rebuild_batch env m)); reflexivity.
Qed.

Lemma rebuild_this m : this (snd (rebuild env m)) = this m.
Proof.
  rewrite rebuild_run, flush_run.
  destruct (failed (flush_fate env m)); simpl; [reflexivity|].
  destruct (first_rejection (rebuild_batch env m)); reflexivity.
Qed.

(** When no command of the run fails, [rebuild] resolves to [true]. *)
Lemma rebuild_resolves m :
  (forall history cmd, failed (child env history cmd) = false) ->
  fst (rebuild env m) = Resolved true.
Proof.
  intros OK. apply rebuild_true_iff. split; [apply OK|].
  unfold rebuild_batch. generalize (snd (flush env false m)) as m1.
  intros m1. generalize (host_rules (clock m1) m1
                           ++ iface_rules (clock m1) m1) as cmds.
  intros cmds. revert m1.
  induction cmds as [|c r IH]; intros m1; simpl; [reflexivity|].
  specialize (IH (issue c m1)).
  destruct (start_each env r (issue c m1)) as [ps m']. simpl in *.
  rewrite IH. unfold rejects; simpl. rewrite OK. reflexivity.
Qed.

Lemma add_run_known host jumpTarget m :
  MemoryCache.includes (clock m) host (hostStorage (this m)) = true ->
  add env host jumpTarget m =
  (Resolved true,
   set_hostStorage
     (snd (MemoryCache.set (clock m) host (default_target jumpTarget)
             (hostStorage (this m)))) m).
Proof.
  intros K. unfold add, bind, hostStorage_includes, hostStorage_set, ret.
  rewrite K. reflexivity.
Qed.

Lemma add_run_unknown host jumpTarget m :
  MemoryCache.includes (clock m) host (hostStorage (this m)) = false ->
  let cmd := add_cmd (options (this m)) host (default_target jumpTarget) in
  let r := child env (issued m) cmd in
  let m1 := advance (elapsed r) (issue cmd m) in
  add env host jumpTarget m =
  if failed r then (Rejected (ExecException cmd), m1)
  else (Resolved true,
        set_hostStorage
          (snd (MemoryCache.set (clock m1) host (default_target jumpTarget)
                  (hostStorage (this m)))) m1).
Proof.
  intros K. unfold add, bind, hostStorage_includes, hostStorage_set, _add.
  rewrite K. cbn [negb]. rewrite exec_run.
  destruct (failed (child env (issued m) _)); reflexivity.
Qed.

Lemma delete_run host m :
  delete env host m =
  if MemoryCache.includes (clock m) host (hostStorage (this m))
  then rebuild env
         (set_hostStorage (MemoryCache.del host (hostStorage (this m))) m)
  else (Resolved false, m).
Proof.
  unfold delete, bind, hostStorage_includes, hostStorage_del, ret.
  destruct (MemoryCache.includes (clock m) host (hostStorage (this m)));
    reflexivity.
Qed.

Lemma flushAll_run m :
  flushAll env m =
  let m1 := advance (elapsed (flush_fate env m))
                    (issue (flush_cmd (options (this m))) m) in
  if failed (flush_fate env m)
  then (Rejected (ExecException (flush_cmd (options (this m)))), m1)
  else (Resolved tt,
        set_hostStorage (MemoryCache.clear (hostStorage (this m))) m1).
Proof.
  unfold flushAll, bind, hostStorage_clear. rewrite flush_run.
  destruct (failed (flush_fate env m)); reflexivity.
Qed.

Lemma keepAlive_run_known host m :
  MemoryCache.includes (clock m) host (hostStorage (this m)) = true ->
  keepAlive env host m =
  (Resolved tt,
   set_hostStorage
     (snd (MemoryCache.set (clock m) host "ACCEPT" (hostStorage (this m))))
     m).
Proof.
  intros K. unfold keepAlive, bind, ret. rewrite add_run_known by exact K.
  reflexivity.
Qed.

(** The [expired] listener finds every swept key absent, so each call of
    [delete] stops at its first test: a sweep changes the host store and
    nothing else. *)
Lemma hostStorage_sweep_run m :
  MemoryCache.wf (hostStorage (this m)) ->
  hostStorage_sweep env m =
  set_hostStorage
    (snd (MemoryCache.sweep (clock m) (hostStorage (this m)))) m.
Proof.
  intros W. unfold hostStorage_sweep.
  pose proof (MemoryCacheFacts.swept_keys_expired (clock m)) as X.
  destruct (MemoryCache.sweep (clock m) (hostStorage (this m)))
    as [keys c] eqn:S.
  assert (A : forall k, In k keys ->
              MemoryCache.includes (clock m) k c = false).
  { intros k I.
    replace c with (snd (MemoryCache.sweep (clock m) (hostStorage (this m))))
      by (rewrite S; reflexivity).
    rewrite MemoryCacheFacts.includes_sweep. apply X; [exact W|].
    rewrite S. exact I. }
  clear S X. cbn [snd].
  induction keys as [|k r IH]; simpl; [reflexivity|].
  unfold on_hostStorage_expired at 2. rewrite delete_run.
  cbn [this clock hostStorage set_hostStorage].
  rewrite (A k) by (left; reflexivity). cbn [snd].
  apply IH. intros k' I. apply A. right; exact I.
Qed.

End Methods.

(* ================================================================== *)
(** ** The store invariant is kept by every method *)
(* ================================================================== *)

Section Invariant.

Variable env : Env.

Lemma constructor_wf o obj now :
  constructor env o = inr obj -> stores_wf (boot obj now).
Proof.
  unfold constructor.
  destruct (if match nullish (family o) 4 with Some 4 => true | _ => false end
            then _ else _) as [e|path]; [discriminate|].
  intros [= <-]. split; constructor.
Qed.

Lemma exec_this cmd nothrow m : this (snd (exec env cmd nothrow m)) = this m.
Proof. rewrite exec_run. reflexivity. Qed.

Lemma add_wf host jumpTarget m :
  stores_wf m -> stores_wf (snd (add env host jumpTarget m)).
Proof.
  intros [H I].
  destruct (MemoryCache.includes (clock m) host (hostStorage (this m)))
    eqn:K.
  - rewrite (add_run_known env host jumpTarget m K).
    split; [apply MemoryCacheFacts.wf_set; exact H | exact I].
  - rewrite (add_run_unknown env host jumpTarget m K).
    destruct (failed _); [split; assumption|].
    split; [apply MemoryCacheFacts.wf_set; exact H | exact I].
Qed.

Lemma addInterface_wf iface jumpTarget m :
  stores_wf m -> stores_wf (snd (addInterface env iface jumpTarget m)).
Proof.
  intros [H I].
  unfold addInterface, bind, ifaceStorage_includes, ifaceStorage_set,
    _addInterface, ret.
  destruct (MemoryCache.includes (clock m) iface (ifaceStorage (this m)));
    cbn [negb].
  - split; [exact H | apply MemoryCacheFacts.wf_set; exact I].
  - rewrite exec_run. destruct (failed _ && _); [split; assumption|].
    split; [exact H | apply MemoryCacheFacts.wf_set; exact I].
Qed.

Lemma rebuild_wf m : stores_wf m -> stores_wf (snd (rebuild env m)).
Proof. unfold stores_wf. rewrite rebuild_this. tauto. Qed.

Lemma delete_wf host m :
  stores_wf m -> stores_wf (snd (delete env host m)).
Proof.
  intros [H I]. rewrite delete_run.
  destruct (MemoryCache.includes (clock m) host (hostStorage (this m)));
    [|split; assumption].
  apply rebuild_wf. split; [apply MemoryCacheFacts.wf_del; exact H | exact I].
Qed.

Lemma deleteInterface_wf iface m :
  stores_wf m -> stores_wf (snd (deleteInterface env iface m)).
Proof.
  intros [H I].
  unfold deleteInterface, bind, ifaceStorage_includes, ifaceStorage_del, ret.
  destruct (MemoryCache.includes (clock m) iface (ifaceStorage (this m)));
    cbn [negb]; [|split; assumption].
  apply rebuild_wf. split; [exact H | apply MemoryCacheFacts.wf_del; exact I].
Qed.

Lemma flushAll_wf m : stores_wf m -> stores_wf (snd (flushAll env m)).
Proof.
  intros [H I]. rewrite flushAll_run.
  destruct (failed (flush_fate env m)); split;
    try assumption. apply MemoryCacheFacts.wf_clear.
Qed.

Lemma keepAlive_wf host m :
  stores_wf m -> stores_wf (snd (keepAlive env host m)).
Proof.
  intros W. unfold keepAlive, bind, ret.
  pose proof (add_wf host None m W) as A.
  destruct (add env host None m) as [[b|e] m']; exact A.
Qed.

Lemma hostStorage_sweep_wf m :
  stores_wf m -> stores_wf (hostStorage_sweep env m).
Proof.
  intros [H I]. rewrite hostStorage_sweep_run by exact H.
  split; [apply MemoryCacheFacts.wf_sweep; exact H | exact I].
Qed.

End Invariant.

(* ================================================================== *)
(** ** Properties of the controller *)
(* ================================================================== *)

(** C1. Whatever the two stores hold, a call of [rebuild] that succeeds
    (its flush does not fail and none of its appends is rejected) returns
    [true] and adds to the log exactly: the flush command, then one append
    per host entry in the order the host store enumerates them, then one
    append per interface entry in the order the interface store enumerates
    them. No append command line equals the flush command line, so the
    flush is issued exactly once. *)
Theorem rebuild_flush_then_appends (env : Env) (m : Machine) :
  failed (flush_fate env m) = false ->
  existsb rejects (rebuild_batch env m) = false ->
  let o := options (this m) in
  let now := flushed_at env m in
  let host_appends :=
    map (fun '(host, jumpTarget) => add_cmd o host jumpTarget)
        (MemoryCache.list now (hostStorage (this m))) in
  let iface_appends :=
    map (fun '(iface, jumpTarget) => addInterface_cmd o iface jumpTarget)
        (MemoryCache.list now (ifaceStorage (this m))) in
  fst (rebuild env m) = Resolved true /\
  issued (snd (rebuild env m)) =
    issued m ++ flush_cmd o :: host_appends ++ iface_appends /\
  ~ In (flush_cmd o) (host_appends ++ iface_appends).
Proof.
  intros F B o now host_appends iface_appends.
  split; [apply rebuild_true_iff; auto|].
  split.
  - rewrite rebuild_issued, F. reflexivity.
  - apply (flush_cmd_not_a_rule now m).
Qed.

Lemma rebuild_flush_then_appends_witness :
  fst (rebuild Scenario.shell_ok Scenario.populated) = Resolved true /\
  issued (snd (rebuild Scenario.shell_ok Scenario.populated)) =
    issued Scenario.populated ++
    [ "/usr/sbin/iptables -F INPUT";
      "/usr/sbin/iptables -A INPUT -s 10.0.0.1 -j ACCEPT";
      "/usr/sbin/iptables -A INPUT -s 8.8.8.8 -j DROP";
      "/usr/sbin/iptables -A INPUT -i eth2 -j DROP" ].
Proof.
  destruct (rebuild_flush_then_appends Scenario.shell_ok Scenario.populated)
    as (R & I & _); [reflexivity | reflexivity |].
  split; [exact R | exact I].
Defined.

(** C7. When the flush command of [rebuild] fails, the failure is caught
    inside [rebuild]: the call resolves to [false] instead of rejecting,
    and the flush is the only command it has issued (no append follows). *)
Theorem rebuild_flush_failure (env : Env) (m : Machine) :
  failed (flush_fate env m) = true ->
  fst (rebuild env m) = Resolved false /\
  issued (snd (rebuild env m)) = issued m ++ [flush_cmd (options (this m))].
Proof.
  intros F. split; [apply rebuild_false_iff; exact F|].
  rewrite rebuild_issued, F. reflexivity.
Qed.

Lemma rebuild_flush_failure_witness :
  fst (rebuild Scenario.shell_no_flush Scenario.populated) = Resolved false /\
  issued (snd (rebuild Scenario.shell_no_flush Scenario.populated)) =
    issued Scenario.populated ++ ["/usr/sbin/iptables -F INPUT"].
Proof.
  apply (rebuild_flush_failure Scenario.shell_no_flush Scenario.populated).
  reflexivity.
Defined.

(** C8. [flush(nothrow)] issues exactly one command, the flush of the
    chain. When that command fails, the call rejects with the error of
    [exec] if [nothrow] is false, and resolves if [nothrow] is true. *)
Theorem flush_one_command (env : Env) (nothrow : bool) (m : Machine) :
  issued (snd (flush env nothrow m)) =
    issued m ++ [flush_cmd (options (this m))] /\
  (failed (flush_fate env m) = true ->
   fst (flush env nothrow m) =
     if nothrow then Resolved tt
     else Rejected (ExecException (flush_cmd (options (this m))))).
Proof.
  rewrite flush_run. split; [reflexivity|].
  intros F. rewrite F. destruct nothrow; reflexivity.
Qed.

Lemma flush_one_command_witness :
  failed (flush_fate Scenario.shell_no_flush Scenario.fresh) = true /\
  fst (flush Scenario.shell_no_flush false Scenario.fresh) =
    Rejected (ExecException "/usr/sbin/iptables -F INPUT") /\
  fst (flush Scenario.shell_no_flush true Scenario.fresh) = Resolved tt /\
  issued (snd (flush Scenario.shell_no_flush true Scenario.fresh)) =
    ["/usr/sbin/iptables -F INPUT"].
Proof.
  split; [reflexivity|].
  split; [|split].
  - apply (proj2 (flush_one_command Scenario.shell_no_flush false
                    Scenario.fresh)). reflexivity.
  - apply (proj2 (flush_one_command Scenario.shell_no_flush true
                    Scenario.fresh)). reflexivity.
  - apply (proj1 (flush_one_command Scenario.shell_no_flush true
                    Scenario.fresh)).
Defined.

(** C9. Constructing the controller with an address family other than 4
    or 6 throws (the constructor returns no object, only the error "Unknown
    address family specified"); with no family given the constructor
    succeeds and the family of the object is 4. *)
Theorem constructor_family (env : Env) (o : Options) :
  (forall f, family o = Some f -> f <> 4 -> f <> 6 ->
     constructor env o = inl (Error "Unknown address family specified")) /\
  (family o = None ->
     exists obj, constructor env o = inr obj /\
                 family (options obj) = Some 4).
Proof.
  unfold constructor. split.
  - intros f E N4 N6. rewrite E. simpl.
    do 7 (destruct f as [|f]; try contradiction; try reflexivity).
  - intros E. rewrite E. simpl. eexists. split; reflexivity.
Qed.

Lemma constructor_family_witness :
  constructor Scenario.shell_ok Scenario.family5_options =
    inl (Error "Unknown address family specified") /\
  exists obj,
    constructor Scenario.shell_ok Scenario.input_options = inr obj /\
    family (options obj) = Some 4.
Proof.
  split.
  - apply (proj1 (constructor_family Scenario.shell_ok
                    Scenario.family5_options) 5); [reflexivity | lia | lia].
  - apply (proj2 (constructor_family Scenario.shell_ok
                    Scenario.input_options)). reflexivity.
Defined.

(** C10. Error atomicity of [add]: for a host the store does not hold,
    when the append command issued by [add] fails, [add] rejects with that
    error and the object is left as it was: the host is not inserted and
    no entry of either store has its value or expiry changed. *)
Theorem add_failure_keeps_store
  (env : Env) (host : string) (jumpTarget : option string) (m : Machine) :
  let cmd := add_cmd (options (this m)) host (default_target jumpTarget) in
  MemoryCache.includes (clock m) host (hostStorage (this m)) = false ->
  failed (child env (issued m) cmd) = true ->
  fst (add env host jumpTarget m) = Rejected (ExecException cmd) /\
  this (snd (add env host jumpTarget m)) = this m /\
  MemoryCache.includes (clock m) host
    (hostStorage (this (snd (add env host jumpTarget m)))) = false.
Proof.
  intros cmd K F. rewrite (add_run_unknown env host jumpTarget m K).
  fold cmd. rewrite F. simpl. auto.
Qed.

Lemma add_failure_keeps_store_witness :
  fst (add Scenario.shell_no_append "1.1.1.1" (Some "DROP") Scenario.banned)
    = Rejected (ExecException "/usr/sbin/iptables -A INPUT -s 1.1.1.1 -j DROP")
  /\
  this (snd (add Scenario.shell_no_append "1.1.1.1" (Some "DROP")
               Scenario.banned)) = this Scenario.banned.
Proof.
  destruct (add_failure_keeps_store Scenario.shell_no_append "1.1.1.1"
              (Some "DROP") Scenario.banned) as (R & T & _);
    [reflexivity | reflexivity |].
  split; [exact R | exact T].
Defined.

(** C6. Whatever the two stores hold, a call of [flushAll] whose flush
    succeeds issues exactly one command, the flush; afterwards the host
    store holds no entry, and the interface store is what it was. *)
Theorem flushAll_clears_hosts_only (env : Env) (m : Machine) :
  failed (flush_fate env m) = false ->
  fst (flushAll env m) = Resolved tt /\
  issued (snd (flushAll env m)) =
    issued m ++ [flush_cmd (options (this m))] /\
  MemoryCache.data (hostStorage (this (snd (flushAll env m)))) = [] /\
  (forall now host,
     MemoryCache.includes now host
       (hostStorage (this (snd (flushAll env m)))) = false) /\
  ifaceStorage (this (snd (flushAll env m))) = ifaceStorage (this m).
Proof.
  intros F. rewrite flushAll_run, F. simpl. repeat split.
Qed.

Lemma flushAll_clears_hosts_only_witness :
  issued (snd (flushAll Scenario.shell_ok Scenario.populated)) =
    issued Scenario.populated ++ ["/usr/sbin/iptables -F INPUT"] /\
  MemoryCache.list 4
    (hostStorage (this (snd (flushAll Scenario.shell_ok Scenario.populated))))
    = [] /\
  MemoryCache.list 4
    (ifaceStorage (this (snd (flushAll Scenario.shell_ok Scenario.populated))))
    = [("eth2", "DROP")].
Proof.
  destruct (flushAll_clears_hosts_only Scenario.shell_ok Scenario.populated)
    as (_ & I & D & _ & E); [reflexivity|].
  split; [exact I|]. split.
  - unfold MemoryCache.list. rewrite D. reflexivity.
  - rewrite E. reflexivity.
Defined.

(** C5. For a host store with unique keys: [add(h, t)] on a host the
    store already holds issues no command at all, and afterwards the store
    enumerates exactly one entry for [h], with value [t]. In particular,
    [add(h, t)] called twice in a row on a host that was not known, the
    first append succeeding, issues that one append command and nothing
    else, and the store enumerates exactly one entry for [h]. *)
Theorem add_known_host_issues_nothing
  (env : Env) (host : string) (jumpTarget : option string) (m : Machine) :
  MemoryCache.wf (hostStorage (this m)) ->
  let t := default_target jumpTarget in
  let entries_of (m' : Machine) :=
    filter (fun kv => String.eqb (fst kv) host)
           (MemoryCache.list (clock m') (hostStorage (this m'))) in
  (MemoryCache.includes (clock m) host (hostStorage (this m)) = true ->
   fst (add env host jumpTarget m) = Resolved true /\
   issued (snd (add env host jumpTarget m)) = issued m /\
   entries_of (snd (add env host jumpTarget m)) = [(host, t)])
  /\
  (MemoryCache.includes (clock m) host (hostStorage (this m)) = false ->
   failed (child env (issued m) (add_cmd (options (this m)) host t)) = false ->
   let twice := (add env host jumpTarget ;; add env host jumpTarget) m in
   fst twice = Resolved true /\
   issued (snd twice) = issued m ++ [add_cmd (options (this m)) host t] /\
   entries_of (snd twice) = [(host, t)]).
Proof.
  intros W t entries_of.
  assert (known : forall m0,
    MemoryCache.wf (hostStorage (this m0)) ->
    MemoryCache.includes (clock m0) host (hostStorage (this m0)) = true ->
    fst (add env host jumpTarget m0) = Resolved true /\
    issued (snd (add env host jumpTarget m0)) = issued m0 /\
    entries_of (snd (add env host jumpTarget m0)) = [(host, t)]).
  { intros m0 W0 K. rewrite (add_run_known env host jumpTarget m0 K).
    repeat split. unfold entries_of. cbn [snd this clock hostStorage
      set_hostStorage]. apply MemoryCacheFacts.list_set_select. exact W0. }
  split; [apply known; exact W|].
  intros K F twice. unfold twice, bind.
  rewrite (add_run_unknown env host jumpTarget m K). fold t. rewrite F.
  set (m1 := advance _ _).
  set (m2 := set_hostStorage _ m1).
  destruct (known m2) as (R & I & E).
  - apply MemoryCacheFacts.wf_set. exact W.
  - apply MemoryCacheFacts.includes_set.
  - destruct (add env host jumpTarget m2) as [r m3]. simpl in *.
    subst r. repeat split; assumption.
Qed.

Lemma add_known_host_issues_nothing_witness :
  (issued (snd (add Scenario.shell_ok "8.8.8.8" (Some "ACCEPT")
                  Scenario.banned)) = issued Scenario.banned /\
   filter (fun kv => String.eqb (fst kv) "8.8.8.8")
     (MemoryCache.list 1
        (hostStorage (this (snd (add Scenario.shell_ok "8.8.8.8"
                                   (Some "ACCEPT") Scenario.banned)))))
     = [("8.8.8.8", "ACCEPT")])
  /\
  issued (snd ((add Scenario.shell_ok "8.8.8.8" (Some "DROP") ;;
                add Scenario.shell_ok "8.8.8.8" (Some "DROP"))
                 Scenario.fresh))
    = ["/usr/sbin/iptables -A INPUT -s 8.8.8.8 -j DROP"].
Proof.
  split.
  - destruct (proj1 (add_known_host_issues_nothing Scenario.shell_ok
                       "8.8.8.8" (Some "ACCEPT") Scenario.banned
                       ltac:(repeat constructor; simpl; tauto))
                eq_refl) as (_ & I & E).
    split; [exact I | exact E].
  - destruct (proj2 (add_known_host_issues_nothing Scenario.shell_ok
                       "8.8.8.8" (Some "DROP") Scenario.fresh
                       ltac:(constructor))
                eq_refl eq_refl) as (_ & I & _).
    exact I.
Defined.

(** C3, as the code has it. For every host [h]: if the store does not
    hold [h], [delete(h)] returns [false] and changes nothing (so it issues
    no command). If the store holds [h], [delete(h)] removes [h] from the
    host store whatever happens next; it returns [false] exactly when the
    flush of the rebuild fails, and returns [true] exactly when the flush
    succeeds and none of the appends of the rebuild is rejected. When the
    flush succeeds and an append of the rebuild is rejected, the call does
    not return: it rejects with the error of a rejected append, one of the
    commands re-issued for the remaining entries. *)
Theorem delete_outcome (env : Env) (host : string) (m : Machine) :
  let known := MemoryCache.includes (clock m) host (hostStorage (this m)) in
  let remaining :=
    set_hostStorage (MemoryCache.del host (hostStorage (this m))) m in
  (known = false -> delete env host m = (Resolved false, m)) /\
  (known = true ->
   (forall now,
      MemoryCache.includes now host
        (hostStorage (this (snd (delete env host m)))) = false) /\
   (fst (delete env host m) = Resolved false <->
    failed (flush_fate env m) = true) /\
   (fst (delete env host m) = Resolved true <->
    failed (flush_fate env m) = false /\
    existsb rejects (rebuild_batch env remaining) = false) /\
   (failed (flush_fate env m) = false ->
    existsb rejects (rebuild_batch env remaining) = true ->
    exists p,
      In p (rebuild_batch env remaining) /\
      rejects p = true /\
      fst (delete env host m) = Rejected (ExecException (command p)) /\
      In (command p)
         (host_rules (flushed_at env m) remaining
            ++ iface_rules (flushed_at env m) remaining))).
Proof.
  intros known remaining. rewrite delete_run. fold known. split.
  - intros ->. reflexivity.
  - intros ->. fold remaining. split; [|split; [|split]].
    + intros now. rewrite rebuild_this.
      apply MemoryCacheFacts.includes_del.
    + apply (rebuild_false_iff env remaining).
    + apply (rebuild_true_iff env remaining).
    + intros F B. rewrite rebuild_run.
      change (flush_fate env remaining) with (flush_fate env m). rewrite F.
      destruct (first_rejection (rebuild_batch env remaining)) as [p|] eqn:R.
      * destruct (first_rejection_rejects _ _ R) as [I J].
        exists p. repeat split; try assumption.
        change (flushed_at env m) with (flushed_at env remaining).
        rewrite <- rebuild_batch_commands. apply in_map. exact I.
      * apply first_rejection_none in R. congruence.
Qed.

Lemma delete_outcome_witness :
  delete Scenario.shell_ok "1.1.1.1" Scenario.populated =
    (Resolved false, Scenario.populated) /\
  (forall now,
     MemoryCache.includes now "10.0.0.1"
       (hostStorage (this (snd (delete Scenario.shell_no_flush "10.0.0.1"
                                  Scenario.populated)))) = false) /\
  fst (delete Scenario.shell_no_flush "10.0.0.1" Scenario.populated) =
    Resolved false /\
  fst (delete Scenario.shell_ok "10.0.0.1" Scenario.populated) =
    Resolved true /\
  (exists p,
     rejects p = true /\
     fst (delete Scenario.shell_no_append "10.0.0.1" Scenario.populated) =
       Rejected (ExecException (command p)) /\
     In (command p)
        [ "/usr/sbin/iptables -A INPUT -s 8.8.8.8 -j DROP";
          "/usr/sbin/iptables -A INPUT -i eth2 -j DROP" ]).
Proof.
  split; [|split; [|split; [|split]]].
  - apply (proj1 (delete_outcome Scenario.shell_ok "1.1.1.1"
                    Scenario.populated)). reflexivity.
  - destruct (proj2 (delete_outcome Scenario.shell_no_flush "10.0.0.1"
                       Scenario.populated) eq_refl) as (G & _).
    exact G.
  - destruct (proj2 (delete_outcome Scenario.shell_no_flush "10.0.0.1"
                       Scenario.populated) eq_refl) as (_ & (_ & F) & _).
    apply F. reflexivity.
  - destruct (proj2 (delete_outcome Scenario.shell_ok "10.0.0.1"
                       Scenario.populated) eq_refl) as (_ & _ & (_ & T) & _).
    apply T. split; reflexivity.
  - destruct (proj2 (delete_outcome Scenario.shell_no_append "10.0.0.1"
                       Scenario.populated) eq_refl) as (_ & _ & _ & E).
    destruct (E eq_refl eq_refl) as (p & _ & J & R & I).
    exists p. split; [exact J|]. split; [exact R | exact I].
Defined.

(** C3 as stated fails: with 10.0.0.1 known, a flush that succeeds and an
    append that fails, [delete('10.0.0.1')] does not return [true]; the
    rejection of the append reaches the caller. *)
Lemma delete_rejects_when_append_fails :
  MemoryCache.includes (clock Scenario.populated) "10.0.0.1"
    (hostStorage (this Scenario.populated)) = true /\
  failed (flush_fate Scenario.shell_no_append Scenario.populated) = false /\
  fst (delete Scenario.shell_no_append "10.0.0.1" Scenario.populated) =
    Rejected (ExecException "/usr/sbin/iptables -A INPUT -s 8.8.8.8 -j DROP")
  /\
  ~ (fst (delete Scenario.shell_no_append "10.0.0.1" Scenario.populated) =
       Resolved true <->
     failed (flush_fate Scenario.shell_no_append Scenario.populated) = false).
Proof.
  split; [reflexivity|]. split; [reflexivity|]. split; [reflexivity|].
  intros [_ H]. discriminate (H eq_refl).
Qed.

(** C4 fails on the code. [keepAlive(h)] calls [add(h)] without a target,
    so the store records ['ACCEPT'] for [h] whatever target it held: after
    [add('8.8.8.8', 'DROP')] and [keepAlive('8.8.8.8')] the store maps
    8.8.8.8 to ACCEPT, and the next rebuild renders an ACCEPT rule. *)
Theorem keepAlive_overwrites_target :
  let m := snd (keepAlive Scenario.shell_ok "8.8.8.8" Scenario.banned) in
  MemoryCache.list (clock Scenario.banned)
    (hostStorage (this Scenario.banned)) = [("8.8.8.8", "DROP")] /\
  fst (keepAlive Scenario.shell_ok "8.8.8.8" Scenario.banned) = Resolved tt /\
  MemoryCache.list (clock m) (hostStorage (this m)) = [("8.8.8.8", "ACCEPT")] /\
  issued_by m (snd (rebuild Scenario.shell_ok m)) =
    [ "/usr/sbin/iptables -F INPUT";
      "/usr/sbin/iptables -A INPUT -s 8.8.8.8 -j ACCEPT" ].
Proof. repeat split. Qed.

(** C2 fails on the code. 8.8.8.8 is added with the default lease of 300
    seconds; once the lease has lapsed the store no longer includes it, and
    the sweep notifies the [expired] listener of the key. The listener
    calls [delete], which finds the key absent and returns at once: no
    flush is issued, no rule is re-appended, and the controller emits no
    event. *)
Theorem expiry_sweep_is_silent :
  let m := Scenario.lapsed in
  MemoryCache.includes (clock m) "8.8.8.8" (hostStorage (this m)) = false /\
  fst (MemoryCache.sweep (clock m) (hostStorage (this m))) = ["8.8.8.8"] /\
  issued_by m (hostStorage_sweep Scenario.shell_ok m) = [] /\
  emitted (this (hostStorage_sweep Scenario.shell_ok m)) = [].
Proof. repeat split. Qed.

(** The same at every machine whose host store has unique keys: a sweep
    issues no command and emits no event. *)
Lemma hostStorage_sweep_silent (env : Env) (m : Machine) :
  MemoryCache.wf (hostStorage (this m)) ->
  issued (hostStorage_sweep env m) = issued m /\
  emitted (this (hostStorage_sweep env m)) = emitted (this m).
Proof.
  intros W. rewrite hostStorage_sweep_run by exact W. split; reflexivity.
Qed.

(** In the store itself the lease does lapse: an entry written at [now]
    under a finite TTL is included up to [now + TTL] and not after. *)
Lemma lease_lapses (now later : nat) (k v : string) (c : MemoryCache.t) :
  MemoryCache.wf c -> MemoryCache.stdTTL c <> 0 ->
  now + MemoryCache.stdTTL c < later ->
  MemoryCache.includes now k (snd (MemoryCache.set now k v c)) = true /\
  MemoryCache.includes later k (snd (MemoryCache.set now k v c)) = false.
Proof.
  intros W T L. split.
  - apply MemoryCacheFacts.includes_set.
  - apply MemoryCacheFacts.includes_after_ttl; assumption.
Qed.

(** Whatever target a known host holds, [keepAlive] writes ['ACCEPT']. *)
Lemma keepAlive_writes_ACCEPT (env : Env) (host : string) (m : Machine) :
  MemoryCache.wf (hostStorage (this m)) ->
  MemoryCache.includes (clock m) host (hostStorage (this m)) = true ->
  let m' := snd (keepAlive env host m) in
  filter (fun kv => String.eqb (fst kv) host)
         (MemoryCache.list (clock m') (hostStorage (this m')))
  = [(host, "ACCEPT")].
Proof.
  intros W K m'. unfold m'. rewrite (keepAlive_run_known env host m K).
  cbn [snd this clock hostStorage set_hostStorage].
  apply MemoryCacheFacts.list_set_select. exact W.
Qed.


(* ================================================================== *)
(** ** More facts about the store *)
(* ================================================================== *)

Module MemoryCacheLaws.
Import MemoryCache.

(** The snapshot of a store after [del] is the snapshot before, without
    the pairs of the deleted key; the others keep their order. *)
Lemma list_del now k c :
  list now (del k c)
  = filter (fun kv => negb (String.eqb (fst kv) k)) (list now c).
Proof.
  unfold list, del; simpl.
  induction (data c) as [|x r IH]; simpl; [reflexivity|].
  destruct (String.eqb (key x) k) eqn:E; simpl.
  - destruct (live now x); simpl; rewrite ?E; simpl; exact IH.
  - destruct (live now x); simpl; rewrite ?E; simpl; [f_equal|]; exact IH.
Qed.

Lemma includes_put_other now k e l :
  key e <> k ->
  existsb (fun x => String.eqb (key x) k && live now x) (put e l)
  = existsb (fun x => String.eqb (key x) k && live now x) l.
Proof.
  intros N. induction l as [|x r IH]; simpl.
  - destruct (String.eqb_spec (key e) k); [contradiction | reflexivity].
  - destruct (String.eqb_spec (key x) (key e)) as [E|D]; simpl.
    + destruct (String.eqb_spec (key e) k); [contradiction|].
      rewrite E. destruct (String.eqb_spec (key e) k); [contradiction|].
      reflexivity.
    + rewrite IH. reflexivity.
Qed.

Lemma includes_set_other now later k k' v c :
  k <> k' ->
  includes later k' (snd (set now k v c)) = includes later k' c.
Proof. intros N. apply includes_put_other. exact N. Qed.

Lemma includes_del_other now k k' c :
  k <> k' -> includes now k' (del k c) = includes now k' c.
Proof.
  intros N. unfold includes, del; simpl.
  induction (data c) as [|x r IH]; simpl; [reflexivity|].
  destruct (String.eqb_spec (key x) k) as [E|D]; simpl.
  - destruct (String.eqb_spec (key x) k'); [congruence|]. exact IH.
  - rewrite IH. reflexivity.
Qed.

(** The entry written by [set] is included as long as its lease runs:
    for ever under a TTL of 0, up to [now + TTL] otherwise. *)
Lemma includes_within_ttl now later k v c :
  stdTTL c = 0 \/ later <= now + stdTTL c ->
  includes later k (snd (set now k v c)) = true.
Proof.
  intros H. unfold includes, set; simpl.
  set (e := Entry k v (deadline now c)).
  assert (L : live later e = true).
  { unfold live, e, deadline; simpl.
    destruct (Nat.eqb_spec (stdTTL c) 0); [reflexivity|].
    apply Nat.leb_le. lia. }
  induction (data c) as [|x r IH]; simpl.
  - rewrite String.eqb_refl, L. reflexivity.
  - destruct (String.eqb (key x) k) eqn:E; simpl.
    + rewrite String.eqb_refl, L. reflexivity.
    + rewrite E. simpl. exact IH.
Qed.

Lemma eternal_create period : eternal (create 0 period).
Proof. split; [reflexivity | constructor]. Qed.

Lemma eternal_set now k v c : eternal c -> eternal (snd (set now k v c)).
Proof.
  intros [T F]. split; [exact T|]. unfold set; simpl.
  assert (D : expiry (Entry k v (deadline now c)) = None).
  { unfold deadline. rewrite T. reflexivity. }
  revert D. generalize (Entry k v (deadline now c)) as e. intros e D.
  induction F as [|x r Hx Hr IH]; simpl.
  - repeat constructor. exact D.
  - destruct (String.eqb (key x) (key e)); constructor; auto.
Qed.

Lemma eternal_del k c : eternal c -> eternal (del k c).
Proof.
  intros [T F]. split; [exact T|]. unfold del; simpl.
  induction F as [|x r Hx Hr IH]; simpl; [constructor|].
  destruct (negb (String.eqb (key x) k)); [constructor|]; auto.
Qed.

(** In a store whose entries never expire, what [includes] answers does
    not depend on the instant it is asked at. *)
Lemma eternal_includes now later k c :
  eternal c -> includes now k c = includes later k c.
Proof.
  intros [_ F]. unfold includes.
  induction F as [|x r Hx Hr IH]; simpl; [reflexivity|].
  unfold live at 1 3. rewrite Hx, IH. reflexivity.
Qed.

End MemoryCacheLaws.

(* ================================================================== *)
(** ** The interface methods, case by case *)
(* ================================================================== *)

Section Interfaces.

Variable env : Env.

Lemma addInterface_run_known iface jumpTarget m :
  MemoryCache.includes (clock m) iface (ifaceStorage (this m)) = true ->
  addInterface env iface jumpTarget m =
  (Resolved true,
   set_ifaceStorage
     (snd (MemoryCache.set (clock m) iface (default_target jumpTarget)
             (ifaceStorage (this m)))) m).
Proof.
  intros K.
  unfold addInterface, bind, ifaceStorage_includes, ifaceStorage_set, ret.
  rewrite K. reflexivity.
Qed.

Lemma addInterface_run_unknown iface jumpTarget m :
  MemoryCache.includes (clock m) iface (ifaceStorage (this m)) = false ->
  let cmd :=
    addInterface_cmd (options (this m)) iface (default_target jumpTarget) in
  let r := child env (issued m) cmd in
  let m1 := advance (elapsed r) (issue cmd m) in
  addInterface env iface jumpTarget m =
  if failed r then (Rejected (ExecException cmd), m1)
  else (Resolved true,
        set_ifaceStorage
          (snd (MemoryCache.set (clock m1) iface (default_target jumpTarget)
                  (ifaceStorage (this m)))) m1).
Proof.
  intros K.
  unfold addInterface, bind, ifaceStorage_includes, ifaceStorage_set,
    _addInterface.
  rewrite K. cbn [negb]. rewrite exec_run.
  destruct (failed (child env (issued m) _)); reflexivity.
Qed.

Lemma deleteInterface_run iface m :
  deleteInterface env iface m =
  if MemoryCache.includes (clock m) iface (ifaceStorage (this m))
  then rebuild env
         (set_ifaceStorage (MemoryCache.del iface (ifaceStorage (this m))) m)
  else (Resolved false, m).
Proof.
  unfold deleteInterface, bind, ifaceStorage_includes, ifaceStorage_del, ret.
  destruct (MemoryCache.includes (clock m) iface (ifaceStorage (this m)));
    reflexivity.
Qed.


End Interfaces.

(* ================================================================== *)
(** ** Further properties of the controller *)
(* ================================================================== *)

(** X1. Error atomicity of [addInterface]: for an interface the store
    does not hold, when the append command fails, [addInterface] rejects
    with that error, has issued that one command, and the object is left as
    it was (the interface is not inserted, no store changes). *)
Theorem addInterface_failure_keeps_store
  (env : Env) (iface : string) (jumpTarget : option string) (m : Machine) :
  let cmd :=
    addInterface_cmd (options (this m)) iface (default_target jumpTarget) in
  MemoryCache.includes (clock m) iface (ifaceStorage (this m)) = false ->
  failed (child env (issued m) cmd) = true ->
  fst (addInterface env iface jumpTarget m) = Rejected (ExecException cmd) /\
  issued (snd (addInterface env iface jumpTarget m)) = issued m ++ [cmd] /\
  this (snd (addInterface env iface jumpTarget m)) = this m.
Proof.
  intros cmd K F. rewrite (addInterface_run_unknown env iface jumpTarget m K).
  fold cmd. rewrite F. simpl. auto.
Qed.

Lemma addInterface_failure_keeps_store_witness :
  fst (addInterface Scenario.shell_no_append "eth0" None Scenario.populated)
    = Rejected (ExecException "/usr/sbin/iptables -A INPUT -i eth0 -j ACCEPT")
  /\
  this (snd (addInterface Scenario.shell_no_append "eth0" None
               Scenario.populated)) = this Scenario.populated.
Proof.
  destruct (addInterface_failure_keeps_store Scenario.shell_no_append "eth0"
              None Scenario.populated) as (R & _ & T);
    [reflexivity | reflexivity |].
  split; [exact R | exact T].
Defined.

(** X2. For an interface store with unique keys, [addInterface(i, t)] on
    an interface the store already holds issues no command, returns
    [true], and afterwards the store enumerates exactly one entry for [i],
    with value [t]; the host store is untouched. *)
Theorem addInterface_known_issues_nothing
  (env : Env) (iface : string) (jumpTarget : option string) (m : Machine) :
  MemoryCache.wf (ifaceStorage (this m)) ->
  MemoryCache.includes (clock m) iface (ifaceStorage (this m)) = true ->
  let m' := snd (addInterface env iface jumpTarget m) in
  fst (addInterface env iface jumpTarget m) = Resolved true /\
  issued m' = issued m /\
  filter (fun kv => String.eqb (fst kv) iface)
         (MemoryCache.list (clock m') (ifaceStorage (this m')))
    = [(iface, default_target jumpTarget)] /\
  hostStorage (this m') = hostStorage (this m).
Proof.
  intros W K m'. unfold m'.
  rewrite (addInterface_run_known env iface jumpTarget m K).
  repeat split. cbn [snd this clock ifaceStorage set_ifaceStorage].
  apply MemoryCacheFacts.list_set_select. exact W.
Qed.

Lemma addInterface_known_issues_nothing_witness :
  issued (snd (addInterface Scenario.shell_ok "eth2" (Some "ACCEPT")
                 Scenario.populated)) = issued Scenario.populated /\
  filter (fun kv => String.eqb (fst kv) "eth2")
    (MemoryCache.list 3
       (ifaceStorage (this (snd (addInterface Scenario.shell_ok "eth2"
                                   (Some "ACCEPT") Scenario.populated)))))
    = [("eth2", "ACCEPT")].
Proof.
  destruct (addInterface_known_issues_nothing Scenario.shell_ok "eth2"
              (Some "ACCEPT") Scenario.populated
              ltac:(repeat constructor; simpl; tauto) eq_refl)
    as (_ & I & E & _).
  split; [exact I | exact E].
Defined.

(** X3. In an interface store created with a TTL of 0, as the
    constructor creates it, an interface that [addInterface] has recorded
    (the call returned [true]) is included at every instant from then on:
    no amount of time makes it lapse. *)
Theorem addInterface_never_expires
  (env : Env) (iface : string) (jumpTarget : option string) (m : Machine) :
  MemoryCache.stdTTL (ifaceStorage (this m)) = 0 ->
  fst (addInterface env iface jumpTarget m) = Resolved true ->
  forall later,
    MemoryCache.includes later iface
      (ifaceStorage (this (snd (addInterface env iface jumpTarget m)))) = true.
Proof.
  intros T R later.
  destruct (MemoryCache.includes (clock m) iface (ifaceStorage (this m)))
    eqn:K.
  - rewrite (addInterface_run_known env iface jumpTarget m K).
    cbn [snd this ifaceStorage set_ifaceStorage].
    apply MemoryCacheLaws.includes_within_ttl. left; exact T.
  - revert R. rewrite (addInterface_run_unknown env iface jumpTarget m K).
    destruct (failed _); [discriminate|]. intros _.
    cbn [snd this ifaceStorage set_ifaceStorage].
    apply MemoryCacheLaws.includes_within_ttl. left; exact T.
Qed.

Lemma addInterface_never_expires_witness :
  MemoryCache.includes 5000 "eth0"
    (ifaceStorage (this (snd (addInterface Scenario.shell_ok "eth0"
                                (Some "DROP") Scenario.fresh)))) = true.
Proof.
  apply (addInterface_never_expires Scenario.shell_ok "eth0" (Some "DROP")
           Scenario.fresh); reflexivity.
Defined.

(** X4. [deleteInterface(i)]: if the store does not hold [i], it returns
    [false] and changes nothing. If the store holds [i], the entry is
    removed whatever happens next and the host store is untouched; the call
    returns [false] exactly when the flush of the rebuild fails, and [true]
    exactly when the flush succeeds and no append of the rebuild is
    rejected. *)
Theorem deleteInterface_outcome (env : Env) (iface : string) (m : Machine) :
  let known := MemoryCache.includes (clock m) iface (ifaceStorage (this m)) in
  let remaining :=
    set_ifaceStorage (MemoryCache.del iface (ifaceStorage (this m))) m in
  (known = false -> deleteInterface env iface m = (Resolved false, m)) /\
  (known = true ->
   (forall now,
      MemoryCache.includes now iface
        (ifaceStorage (this (snd (deleteInterface env iface m)))) = false) /\
   hostStorage (this (snd (deleteInterface env iface m)))
     = hostStorage (this m) /\
   (fst (deleteInterface env iface m) = Resolved false <->
    failed (flush_fate env m) = true) /\
   (fst (deleteInterface env iface m) = Resolved true <->
    failed (flush_fate env m) = false /\
    existsb rejects (rebuild_batch env remaining) = false)).
Proof.
  intros known remaining. rewrite deleteInterface_run. fold known. split.
  - intros ->. reflexivity.
  - intros ->. fold remaining. split; [|split; [|split]].
    + intros now. rewrite rebuild_this.
      apply MemoryCacheFacts.includes_del.
    + rewrite rebuild_this. reflexivity.
    + apply (rebuild_false_iff env remaining).
    + apply (rebuild_true_iff env remaining).
Qed.

Lemma deleteInterface_outcome_witness :
  deleteInterface Scenario.shell_ok "wlan0" Scenario.populated =
    (Resolved false, Scenario.populated) /\
  fst (deleteInterface Scenario.shell_no_flush "eth2" Scenario.populated) =
    Resolved false /\
  MemoryCache.includes 4 "eth2"
    (ifaceStorage (this (snd (deleteInterface Scenario.shell_no_flush "eth2"
                                Scenario.populated)))) = false /\
  fst (deleteInterface Scenario.shell_ok "eth2" Scenario.populated) =
    Resolved true.
Proof.
  split; [|split; [|split]].
  - apply (proj1 (deleteInterface_outcome Scenario.shell_ok "wlan0"
                    Scenario.populated)). reflexivity.
  - apply (proj2 (deleteInterface_outcome Scenario.shell_no_flush "eth2"
                    Scenario.populated) eq_refl). reflexivity.
  - apply (proj1 (proj2 (deleteInterface_outcome Scenario.shell_no_flush
                           "eth2" Scenario.populated) eq_refl)).
  - apply (proj2 (deleteInterface_outcome Scenario.shell_ok "eth2"
                    Scenario.populated) eq_refl).
    split; reflexivity.
Defined.

(** X5. When the flush of [flushAll] fails, [flushAll] rejects with that
    error after issuing the one flush command, and the host store is not
    cleared: the object is left as it was. *)
Theorem flushAll_failure_keeps_hosts (env : Env) (m : Machine) :
  failed (flush_fate env m) = true ->
  fst (flushAll env m) =
    Rejected (ExecException (flush_cmd (options (this m)))) /\
  issued (snd (flushAll env m)) =
    issued m ++ [flush_cmd (options (this m))] /\
  this (snd (flushAll env m)) = this m.
Proof.
  intros F. rewrite flushAll_run, F. simpl. auto.
Qed.

Lemma flushAll_failure_keeps_hosts_witness :
  fst (flushAll Scenario.shell_no_flush Scenario.populated) =
    Rejected (ExecException "/usr/sbin/iptables -F INPUT") /\
  MemoryCache.list 4
    (hostStorage (this (snd (flushAll Scenario.shell_no_flush
                               Scenario.populated))))
    = [("10.0.0.1", "ACCEPT"); ("8.8.8.8", "DROP")].
Proof.
  destruct (flushAll_failure_keeps_hosts Scenario.shell_no_flush
              Scenario.populated) as (R & _ & T); [reflexivity|].
  split; [exact R | rewrite T; reflexivity].
Defined.

(** Two more facts about snapshots, for the theorems below. *)
Lemma list_set_in now k v c :
  In (k, v) (MemoryCache.list now (snd (MemoryCache.set now k v c))).
Proof.
  unfold MemoryCache.list, MemoryCache.set; simpl.
  set (e := MemoryCache.Entry k v (MemoryCache.deadline now c)).
  assert (L : MemoryCache.live now e = true)
    by apply MemoryCacheFacts.live_fresh.
  apply in_map_iff. exists e. split; [reflexivity|].
  apply filter_In. split; [|exact L].
  induction (MemoryCache.data c) as [|x r IH]; simpl; [auto|].
  destruct (String.eqb (MemoryCache.key x) k); simpl; auto.
Qed.

Lemma list_set_other now at_ k v c :
  filter (fun kv => negb (String.eqb (fst kv) k))
         (MemoryCache.list now (snd (MemoryCache.set at_ k v c)))
  = filter (fun kv => negb (String.eqb (fst kv) k)) (MemoryCache.list now c).
Proof.
  unfold MemoryCache.list, MemoryCache.set; simpl.
  set (e := MemoryCache.Entry k v (MemoryCache.deadline at_ c)).
  induction (MemoryCache.data c) as [|x r IH]; simpl.
  - destruct (MemoryCache.live now e); simpl; [|reflexivity].
    rewrite String.eqb_refl. reflexivity.
  - destruct (String.eqb (MemoryCache.key x) k) eqn:E; simpl.
    + destruct (MemoryCache.live now e), (MemoryCache.live now x); simpl;
        rewrite ?String.eqb_refl, ?E; reflexivity.
    + destruct (MemoryCache.live now x); simpl; rewrite ?E; simpl;
        [f_equal|]; exact IH.
Qed.



(** X7. [add(h, t)] on a host the store does not hold, the append
    succeeding: the call returns [true] and issues exactly that append
    ([-s h -j t], with [t] defaulting to ACCEPT); the lease of [h] starts
    when the append has finished, so [h] is included up to that instant
    plus the TTL (for ever when the TTL is 0) and, with unique keys, no
    longer; the interface store is untouched. *)
Theorem add_unknown_host_lease
  (env : Env) (host : string) (jumpTarget : option string) (m : Machine) :
  let cmd := add_cmd (options (this m)) host (default_target jumpTarget) in
  let done := clock m + elapsed (child env (issued m) cmd) in
  let ttl := MemoryCache.stdTTL (hostStorage (this m)) in
  let m' := snd (add env host jumpTarget m) in
  MemoryCache.includes (clock m) host (hostStorage (this m)) = false ->
  failed (child env (issued m) cmd) = false ->
  fst (add env host jumpTarget m) = Resolved true /\
  issued m' = issued m ++ [cmd] /\
  clock m' = done /\
  (forall later, ttl = 0 \/ later <= done + ttl ->
     MemoryCache.includes later host (hostStorage (this m')) = true) /\
  (MemoryCache.wf (hostStorage (this m)) ->
   forall later, ttl <> 0 -> done + ttl < later ->
     MemoryCache.includes later host (hostStorage (this m')) = false) /\
  ifaceStorage (this m') = ifaceStorage (this m).
Proof.
  intros cmd done ttl m' K F. unfold m'.
  rewrite (add_run_unknown env host jumpTarget m K). fold cmd. rewrite F.
  cbn [fst snd this clock issued hostStorage ifaceStorage set_hostStorage
       advance issue].
  repeat split.
  - intros later H. apply MemoryCacheLaws.includes_within_ttl. exact H.
  - intros W later T L. apply MemoryCacheFacts.includes_after_ttl; assumption.
Qed.

Lemma add_unknown_host_lease_witness :
  issued (snd (add Scenario.shell_ok "8.8.8.8" (Some "DROP") Scenario.fresh))
    = ["/usr/sbin/iptables -A INPUT -s 8.8.8.8 -j DROP"] /\
  MemoryCache.includes 301 "8.8.8.8" (hostStorage (this Scenario.banned))
    = true /\
  MemoryCache.includes 302 "8.8.8.8" (hostStorage (this Scenario.banned))
    = false.
Proof.
  destruct (add_unknown_host_lease Scenario.shell_ok "8.8.8.8" (Some "DROP")
              Scenario.fresh eq_refl eq_refl) as (_ & I & _ & A & B & _).
  split; [exact I|]. split.
  - apply (A 301). right. simpl. lia.
  - apply (B ltac:(constructor) 302); simpl; lia.
Defined.

(** X8. [delete(h)] on a known host whose flush succeeds issues the
    flush and then re-appends what the stores enumerate once the flush has
    settled, without the entry of [h]: the other hosts in their order, then
    the interfaces. *)
Theorem delete_rerenders_remaining
  (env : Env) (host : string) (m : Machine) :
  MemoryCache.includes (clock m) host (hostStorage (this m)) = true ->
  failed (flush_fate env m) = false ->
  let o := options (this m) in
  let now := flushed_at env m in
  issued (snd (delete env host m)) =
    issued m ++ flush_cmd o
      :: map (fun '(h, t) => add_cmd o h t)
             (filter (fun kv => negb (String.eqb (fst kv) host))
                     (MemoryCache.list now (hostStorage (this m))))
      ++ map (fun '(i, t) => addInterface_cmd o i t)
             (MemoryCache.list now (ifaceStorage (this m))).
Proof.
  intros K F o now. rewrite delete_run, K, rebuild_issued.
  change (flush_fate env (set_hostStorage _ m)) with (flush_fate env m).
  rewrite F. unfold host_rules, iface_rules.
  cbn [this clock issued hostStorage ifaceStorage options set_hostStorage].
  change (flushed_at env (set_hostStorage _ m)) with now.
  rewrite MemoryCacheLaws.list_del. reflexivity.
Qed.

Lemma delete_rerenders_remaining_witness :
  issued (snd (delete Scenario.shell_ok "10.0.0.1" Scenario.populated)) =
    issued Scenario.populated ++
    [ "/usr/sbin/iptables -F INPUT";
      "/usr/sbin/iptables -A INPUT -s 8.8.8.8 -j DROP";
      "/usr/sbin/iptables -A INPUT -i eth2 -j DROP" ].
Proof.
  apply (delete_rerenders_remaining Scenario.shell_ok "10.0.0.1"
           Scenario.populated); reflexivity.
Defined.

(** X9. [keepAlive(h)] on a host the store does not hold behaves as a
    fresh [add(h)]: it issues the append [-s h -j ACCEPT] and, when that
    succeeds, records [h] with target ACCEPT. *)
Theorem keepAlive_unknown_host_adds_ACCEPT
  (env : Env) (host : string) (m : Machine) :
  let cmd := add_cmd (options (this m)) host "ACCEPT" in
  let m' := snd (keepAlive env host m) in
  MemoryCache.includes (clock m) host (hostStorage (this m)) = false ->
  failed (child env (issued m) cmd) = false ->
  fst (keepAlive env host m) = Resolved tt /\
  issued m' = issued m ++ [cmd] /\
  In (host, "ACCEPT") (MemoryCache.list (clock m') (hostStorage (this m'))).
Proof.
  intros cmd m' K F. unfold m', keepAlive, bind, ret.
  rewrite (add_run_unknown env host None m K).
  change (default_target None) with "ACCEPT". fold cmd. rewrite F.
  cbn [fst snd this clock issued hostStorage set_hostStorage advance issue].
  repeat split. apply list_set_in.
Qed.

Lemma keepAlive_unknown_host_adds_ACCEPT_witness :
  issued (snd (keepAlive Scenario.shell_ok "1.1.1.1" Scenario.banned)) =
    issued Scenario.banned
      ++ ["/usr/sbin/iptables -A INPUT -s 1.1.1.1 -j ACCEPT"] /\
  In ("1.1.1.1", "ACCEPT")
     (MemoryCache.list 2
        (hostStorage (this (snd (keepAlive Scenario.shell_ok "1.1.1.1"
                                   Scenario.banned))))).
Proof.
  destruct (keepAlive_unknown_host_adds_ACCEPT Scenario.shell_ok "1.1.1.1"
              Scenario.banned eq_refl eq_refl) as (_ & I & E).
  split; [exact I | exact E].
Defined.

(** X10. [add(h, t)] that returned [true], followed at once by
    [delete(h)]: [delete] finds [h], so it flushes the chain, and
    afterwards the host store enumerates, at every instant, what it
    enumerated before the two calls without any entry of [h]; the interface
    store is untouched. *)
Theorem add_then_delete
  (env : Env) (host : string) (jumpTarget : option string) (m : Machine) :
  fst (add env host jumpTarget m) = Resolved true ->
  let m1 := snd (add env host jumpTarget m) in
  let m2 := snd (delete env host m1) in
  (forall now,
     MemoryCache.list now (hostStorage (this m2)) =
     filter (fun kv => negb (String.eqb (fst kv) host))
            (MemoryCache.list now (hostStorage (this m)))) /\
  ifaceStorage (this m2) = ifaceStorage (this m) /\
  (exists rest,
     issued m2 = issued m1 ++ flush_cmd (options (this m)) :: rest).
Proof.
  intros R m1 m2.
  assert (S : exists at_,
             this m1 = this (set_hostStorage
                               (snd (MemoryCache.set at_ host
                                       (default_target jumpTarget)
                                       (hostStorage (this m)))) m)
             /\ clock m1 = at_).
  { unfold m1. revert R.
    destruct (MemoryCache.includes (clock m) host (hostStorage (this m)))
      eqn:K.
    - rewrite (add_run_known env host jumpTarget m K). intros _.
      exists (clock m). split; reflexivity.
    - rewrite (add_run_unknown env host jumpTarget m K).
      destruct (failed _); [discriminate|]. intros _.
      eexists. split; reflexivity. }
  destruct S as (at_ & T & C).
  assert (K1 : MemoryCache.includes (clock m1) host (hostStorage (this m1))
               = true).
  { rewrite T, C. apply MemoryCacheFacts.includes_set. }
  unfold m2. rewrite delete_run, K1. split; [|split].
  - intros now. rewrite rebuild_this.
    cbn [this hostStorage set_hostStorage]. rewrite T.
    cbn [this hostStorage set_hostStorage].
    rewrite MemoryCacheLaws.list_del. apply list_set_other.
  - rewrite rebuild_this. cbn [this ifaceStorage set_hostStorage].
    rewrite T. reflexivity.
  - rewrite rebuild_issued.
    cbn [this issued options set_hostStorage]. rewrite T.
    eexists. reflexivity.
Qed.

Lemma add_then_delete_witness :
  MemoryCache.list 10
    (hostStorage
       (this (snd (delete Scenario.shell_ok "1.1.1.1"
                     (snd (add Scenario.shell_ok "1.1.1.1" (Some "DROP")
                             Scenario.populated))))))
  = [("10.0.0.1", "ACCEPT"); ("8.8.8.8", "DROP")].
Proof.
  destruct (add_then_delete Scenario.shell_ok "1.1.1.1" (Some "DROP")
              Scenario.populated eq_refl) as (L & _ & _).
  rewrite (L 10). reflexivity.
Defined.

(* ================================================================== *)
(** ** The constructor *)
(* ================================================================== *)

(** Every object the constructor returns, written out: the family is 4
    or 6 and decides which tool is looked up. *)
Lemma constructor_run env o obj :
  constructor env o = inr obj ->
  exists f tool,
    (f = 4 /\ tool = "iptables" \/ f = 6 /\ tool = "ip6tables") /\
    nullish (family o) 4 = Some f /\
    obj =
    {| options :=
         {| chain := chain o;
            stdTTL := nullish (stdTTL o) 300;
            iptables :=
              Some (resolve env
                      (show (nullish (iptables o)
                               (or_else (which env tool)
                                  ("/usr/sbin/" ++ tool)%string))));
            family := Some f |};
       hostStorage :=
         MemoryCache.create
           (match nullish (stdTTL o) 300 with Some n => n | None => 0 end)
           (Some (ceil_tenth
                    (match nullish (stdTTL o) 300 with
                     | Some n => n | None => 0 end)));
       ifaceStorage := MemoryCache.create 0 None;
       emitted := [] |}.
Proof.
  unfold constructor.
  destruct (nullish (family o) 4) as [f|] eqn:E.
  - do 7 (try (destruct f as [|f]); try discriminate).
    + intros [= <-]. exists 4, "iptables". auto.
    + intros [= <-]. exists 6, "ip6tables". auto.
  - destruct (family o); discriminate.
Qed.

Lemma ceil_tenth_bounds n : n <= 10 * ceil_tenth n < n + 10.
Proof.
  unfold ceil_tenth.
  pose proof (Nat.div_mod_eq (n + 9) 10) as D.
  pose proof (Nat.mod_upper_bound (n + 9) 10) as U.
  lia.
Qed.



(** X12. Whenever the constructor returns an object: the host store's
    TTL is the caller's [stdTTL], 300 when none was given; its sweep period
    is the TTL divided by ten, rounded up (so it is 0 exactly when the TTL
    is 0); the interface store's TTL is 0; both stores are empty and nothing
    has been emitted. *)
Theorem constructor_stores (env : Env) (o : Options) (obj : IPTables) :
  constructor env o = inr obj ->
  let ttl := match stdTTL o with Some n => n | None => 300 end in
  stdTTL (options obj) = Some ttl /\
  MemoryCache.stdTTL (hostStorage obj) = ttl /\
  (exists period,
     MemoryCache.checkperiod (hostStorage obj) = Some period /\
     ttl <= 10 * period < ttl + 10) /\
  MemoryCache.stdTTL (ifaceStorage obj) = 0 /\
  MemoryCache.data (hostStorage obj) = [] /\
  MemoryCache.data (ifaceStorage obj) = [] /\
  emitted obj = [].
Proof.
  intros C ttl.
  destruct (constructor_run env o obj C) as (f & tool & _ & _ & ->).
  assert (E : nullish (stdTTL o) 300 = Some ttl)
    by (unfold ttl; destruct (stdTTL o); reflexivity).
  cbn [options stdTTL hostStorage ifaceStorage emitted]. rewrite E.
  repeat split; try reflexivity.
  exists (ceil_tenth ttl). split; [reflexivity | apply ceil_tenth_bounds].
Qed.

Lemma constructor_stores_witness :
  exists obj,
    constructor Scenario.shell_ok Scenario.custom_path_options = inr obj /\
    MemoryCache.stdTTL (hostStorage obj) = 300 /\
    MemoryCache.checkperiod (hostStorage obj) = Some 30 /\
    MemoryCache.stdTTL (ifaceStorage obj) = 0.
Proof.
  eexists. split; [reflexivity|].
  destruct (constructor_stores Scenario.shell_ok Scenario.custom_path_options
              _ eq_refl) as (_ & T & _ & I & _).
  split; [exact T|]. split; [reflexivity | exact I].
Defined.

(* ================================================================== *)
(** ** Any sequence of calls *)
(* ================================================================== *)

Section Sequences.

Variable env : Env.

Lemma extends_refl m : extends m m.
Proof.
  split; [reflexivity|]. exists []. rewrite app_nil_r. split; constructor.
Qed.

Lemma extends_trans m1 m2 m3 : extends m1 m2 -> extends m2 m3 -> extends m1 m3.
Proof.
  intros (O1 & n1 & I1 & F1) (O2 & n2 & I2 & F2). split; [congruence|].
  exists (n1 ++ n2). split.
  - rewrite I2, I1, app_assoc. reflexivity.
  - apply Forall_app. split; [exact F1|]. rewrite <- O1. exact F2.
Qed.

(** Only the options and the log matter to [extends]. *)
Lemma extends_same m m' :
  options (this m') = options (this m) -> issued m' = issued m ->
  extends m m'.
Proof.
  intros O I. split; [exact O|]. exists []. rewrite app_nil_r.
  split; [exact I | constructor].
Qed.

Lemma exec_extends cmd nothrow m :
  own_command (options (this m)) cmd ->
  extends m (snd (exec env cmd nothrow m)).
Proof.
  intros H. rewrite exec_run. split; [reflexivity|].
  exists [cmd]. split; [reflexivity|]. constructor; [exact H | constructor].
Qed.

Lemma own_rules now m :
  Forall (own_command (options (this m)))
         (host_rules now m ++ iface_rules now m).
Proof.
  apply Forall_app. split; apply Forall_forall; intros cmd I;
    apply in_map_iff in I as ([k v] & <- & _).
  - right; left. exists k, v. reflexivity.
  - right; right. exists k, v. reflexivity.
Qed.

Lemma rebuild_extends m : extends m (snd (rebuild env m)).
Proof.
  split; [rewrite rebuild_this; reflexivity|].
  eexists. split; [apply rebuild_issued|].
  constructor; [left; reflexivity|].
  destruct (failed (flush_fate env m)); [constructor | apply own_rules].
Qed.

Lemma add_extends host jumpTarget m :
  extends m (snd (add env host jumpTarget m)).
Proof.
  destruct (MemoryCache.includes (clock m) host (hostStorage (this m))) eqn:K.
  - rewrite (add_run_known env host jumpTarget m K).
    apply extends_same; reflexivity.
  - rewrite (add_run_unknown env host jumpTarget m K).
    assert (X : extends m
                  (advance
                     (elapsed (child env (issued m)
                        (add_cmd (options (this m)) host
                           (default_target jumpTarget))))
                     (issue (add_cmd (options (this m)) host
                               (default_target jumpTarget)) m))).
    { split; [reflexivity|]. eexists. split; [reflexivity|].
      constructor; [|constructor]. right; left. eexists _, _. reflexivity. }
    destruct (failed _); [exact X|].
    eapply extends_trans; [exact X|]. apply extends_same; reflexivity.
Qed.

Lemma addInterface_extends iface jumpTarget m :
  extends m (snd (addInterface env iface jumpTarget m)).
Proof.
  destruct (MemoryCache.includes (clock m) iface (ifaceStorage (this m)))
    eqn:K.
  - rewrite (addInterface_run_known env iface jumpTarget m K).
    apply extends_same; reflexivity.
  - rewrite (addInterface_run_unknown env iface jumpTarget m K).
    assert (X : extends m
                  (advance
                     (elapsed (child env (issued m)
                        (addInterface_cmd (options (this m)) iface
                           (default_target jumpTarget))))
                     (issue (addInterface_cmd (options (this m)) iface
                               (default_target jumpTarget)) m))).
    { split; [reflexivity|]. eexists. split; [reflexivity|].
      constructor; [|constructor]. right; right. eexists _, _. reflexivity. }
    destruct (failed _); [exact X|].
    eapply extends_trans; [exact X|]. apply extends_same; reflexivity.
Qed.

Lemma delete_extends host m : extends m (snd (delete env host m)).
Proof.
  rewrite delete_run.
  destruct (MemoryCache.includes (clock m) host (hostStorage (this m)));
    [|apply extends_refl].
  eapply extends_trans; [|apply rebuild_extends].
  apply extends_same; reflexivity.
Qed.

Lemma deleteInterface_extends iface m :
  extends m (snd (deleteInterface env iface m)).
Proof.
  rewrite deleteInterface_run.
  destruct (MemoryCache.includes (clock m) iface (ifaceStorage (this m)));
    [|apply extends_refl].
  eapply extends_trans; [|apply rebuild_extends].
  apply extends_same; reflexivity.
Qed.

Lemma flush_extends nothrow m : extends m (snd (flush env nothrow m)).
Proof. unfold flush. apply exec_extends. left; reflexivity. Qed.

Lemma flushAll_extends m : extends m (snd (flushAll env m)).
Proof.
  rewrite flushAll_run.
  pose proof (flush_extends false m) as X. rewrite flush_run in X.
  destruct (failed (flush_fate env m)); [exact X|].
  eapply extends_trans; [exact X|]. apply extends_same; reflexivity.
Qed.

Lemma keepAlive_extends host m : extends m (snd (keepAlive env host m)).
Proof.
  unfold keepAlive, bind, ret. pose proof (add_extends host None m) as X.
  destruct (add env host None m) as [[b|e] m']; exact X.
Qed.

Lemma hostStorage_sweep_extends m : extends m (hostStorage_sweep env m).
Proof.
  unfold hostStorage_sweep.
  destruct (MemoryCache.sweep (clock m) (hostStorage (this m))) as [keys c].
  assert (X : extends m (set_hostStorage c m))
    by (apply extends_same; reflexivity).
  revert X. generalize (set_hostStorage c m) as m0.
  induction keys as [|k r IH]; intros m0 X; simpl; [exact X|].
  apply IH. eapply extends_trans; [exact X|]. apply delete_extends.
Qed.

Lemma perform_extends c m : extends m (perform env c m).
Proof.
  destruct c; simpl.
  - apply add_extends.
  - apply addInterface_extends.
  - apply delete_extends.
  - apply deleteInterface_extends.
  - apply flush_extends.
  - apply flushAll_extends.
  - apply keepAlive_extends.
  - apply hostStorage_sweep_extends.
  - apply extends_same; reflexivity.
  - apply extends_same; reflexivity.
Qed.

Lemma perform_all_extends cs m : extends m (perform_all env cs m).
Proof.
  revert m. induction cs as [|c r IH]; intros m; simpl.
  - apply extends_refl.
  - eapply extends_trans; [apply perform_extends | apply IH].
Qed.

(** *** What a call can do to the interface store *)

Lemma delete_iface host m :
  ifaceStorage (this (snd (delete env host m))) = ifaceStorage (this m).
Proof.
  rewrite delete_run.
  destruct (MemoryCache.includes (clock m) host (hostStorage (this m)));
    [rewrite rebuild_this|]; reflexivity.
Qed.

Lemma add_iface host jumpTarget m :
  ifaceStorage (this (snd (add env host jumpTarget m)))
  = ifaceStorage (this m).
Proof.
  destruct (MemoryCache.includes (clock m) host (hostStorage (this m))) eqn:K.
  - rewrite (add_run_known env host jumpTarget m K). reflexivity.
  - rewrite (add_run_unknown env host jumpTarget m K).
    destruct (failed _); reflexivity.
Qed.

Lemma hostStorage_sweep_iface m :
  ifaceStorage (this (hostStorage_sweep env m)) = ifaceStorage (this m).
Proof.
  unfold hostStorage_sweep.
  destruct (MemoryCache.sweep (clock m) (hostStorage (this m))) as [keys c].
  change (ifaceStorage (this m))
    with (ifaceStorage (this (set_hostStorage c m))).
  generalize (set_hostStorage c m) as m0.
  induction keys as [|k r IH]; intros m0; simpl; [reflexivity|].
  rewrite IH. apply delete_iface.
Qed.

Lemma perform_iface c m :
  let before := ifaceStorage (this m) in
  let after := ifaceStorage (this (perform env c m)) in
  after = before \/
  (exists at_ iface jumpTarget,
     c = CallAddInterface iface jumpTarget /\
     after = snd (MemoryCache.set at_ iface (default_target jumpTarget)
                    before)) \/
  (exists iface,
     c = CallDeleteInterface iface /\ after = MemoryCache.del iface before).
Proof.
  destruct c; simpl.
  - left. apply add_iface.
  - destruct (MemoryCache.includes (clock m) iface (ifaceStorage (this m)))
      eqn:K.
    + rewrite (addInterface_run_known env iface jumpTarget m K).
      right; left. eexists _, _, _. split; reflexivity.
    + rewrite (addInterface_run_unknown env iface jumpTarget m K).
      destruct (failed _); [left; reflexivity|].
      right; left. eexists _, _, _. split; reflexivity.
  - left. apply delete_iface.
  - rewrite deleteInterface_run.
    destruct (MemoryCache.includes (clock m) iface (ifaceStorage (this m)));
      [|left; reflexivity].
    right; right. exists iface. rewrite rebuild_this. split; reflexivity.
  - left. rewrite flush_run. reflexivity.
  - left. rewrite flushAll_run.
    destruct (failed (flush_fate env m)); reflexivity.
  - left. unfold keepAlive, bind, ret.
    pose proof (add_iface host None m) as X.
    destruct (add env host None m) as [[b|e] m']; exact X.
  - left. apply hostStorage_sweep_iface.
  - left. reflexivity.
  - left. reflexivity.
Qed.

Lemma perform_healthy o c m : healthy o m -> healthy o (perform env c m).
Proof.
  intros (O & W & E). split; [|split].
  - rewrite <- O. apply (perform_extends c m).
  - destruct c; simpl.
    + apply add_wf; exact W.
    + apply addInterface_wf; exact W.
    + apply delete_wf; exact W.
    + apply deleteInterface_wf; exact W.
    + unfold stores_wf. rewrite flush_run. exact W.
    + apply flushAll_wf; exact W.
    + apply keepAlive_wf; exact W.
    + apply hostStorage_sweep_wf; exact W.
    + exact W.
    + exact W.
  - destruct (perform_iface c m) as [->|[(a & i & t & _ & ->)|(i & _ & ->)]].
    + exact E.
    + apply MemoryCacheLaws.eternal_set; exact E.
    + apply MemoryCacheLaws.eternal_del; exact E.
Qed.

Lemma perform_all_healthy o cs m :
  healthy o m -> healthy o (perform_all env cs m).
Proof.
  revert m. induction cs as [|c r IH]; intros m H; simpl; [exact H|].
  apply IH. apply perform_healthy. exact H.
Qed.

Lemma constructor_healthy o obj now :
  constructor env o = inr obj -> healthy (options obj) (boot obj now).
Proof.
  intros C. split; [reflexivity|].
  split; [exact (constructor_wf env o obj now C)|].
  destruct (constructor_run env o obj C) as (f & tool & _ & _ & ->).
  apply MemoryCacheLaws.eternal_create.
Qed.

(** An interface the store holds stays in it through every event but its
    own [deleteInterface]. *)
Lemma perform_keeps_interface o c m iface :
  healthy o m ->
  c <> CallDeleteInterface iface ->
  MemoryCache.includes (clock m) iface (ifaceStorage (this m)) = true ->
  MemoryCache.includes (clock (perform env c m)) iface
    (ifaceStorage (this (perform env c m))) = true.
Proof.
  intros (_ & _ & E) N K.
  destruct (perform_iface c m) as [->|[(a & i & t & _ & ->)|(i & -> & ->)]].
  - rewrite <- K. apply MemoryCacheLaws.eternal_includes. exact E.
  - destruct (String.eqb_spec i iface) as [->|D].
    + apply MemoryCacheLaws.includes_within_ttl. left. apply E.
    + rewrite (MemoryCacheLaws.includes_set_other a _ i iface _ _ D).
      rewrite <- K. apply MemoryCacheLaws.eternal_includes. exact E.
  - assert (D : i <> iface) by congruence.
    rewrite (MemoryCacheLaws.includes_del_other _ i iface _ D).
    rewrite <- K. apply MemoryCacheLaws.eternal_includes. exact E.
Qed.

End Sequences.

Lemma list_keys_nodup now c :
  MemoryCache.wf c -> NoDup (map fst (MemoryCache.list now c)).
Proof.
  intros W. unfold MemoryCache.list. rewrite map_map. simpl.
  apply (MemoryCacheFacts.keys_filter (MemoryCache.live now)). exact W.
Qed.

(** X13. From construction on, through any sequence of method calls,
    sweeps, store faults and waits: the options of the controller never
    change, and at every instant neither store enumerates a key twice (so
    a rebuild never renders two rules for one host or one interface). *)
Theorem calls_keep_invariants
  (env : Env) (o : Options) (obj : IPTables) (t0 : nat) (calls : list Call) :
  constructor env o = inr obj ->
  let m := perform_all env calls (boot obj t0) in
  options (this m) = options obj /\
  forall now,
    NoDup (map fst (MemoryCache.list now (hostStorage (this m)))) /\
    NoDup (map fst (MemoryCache.list now (ifaceStorage (this m)))).
Proof.
  intros C m.
  destruct (perform_all_healthy env (options obj) calls (boot obj t0)
              (constructor_healthy env o obj t0 C)) as (O & [H I] & _).
  split; [exact O|]. intros now. split; apply list_keys_nodup; assumption.
Qed.

Lemma calls_keep_invariants_witness :
  options (this Scenario.populated) = options (this Scenario.fresh) /\
  NoDup (map fst (MemoryCache.list 3 (hostStorage (this Scenario.populated)))).
Proof.
  destruct (calls_keep_invariants Scenario.shell_ok Scenario.input_options
              (this Scenario.fresh) 0
              [CallAdd "10.0.0.1" None; CallAdd "8.8.8.8" (Some "DROP");
               CallAddInterface "eth2" (Some "DROP")] eq_refl) as (O & N).
  split; [exact O | exact (proj1 (N 3))].
Defined.

(** X14. From construction on, every command the controller ever hands
    to the shell is either the flush of its own chain or an append ([-s]
    or [-i] with a jump) to its own chain, through the binary fixed at
    construction: it never issues a delete, never names another chain. *)
Theorem calls_issue_own_commands
  (env : Env) (o : Options) (obj : IPTables) (t0 : nat) (calls : list Call) :
  constructor env o = inr obj ->
  Forall (own_command (options obj))
         (issued (perform_all env calls (boot obj t0))).
Proof.
  intros _.
  destruct (perform_all_extends env calls (boot obj t0)) as (_ & new & I & F).
  rewrite I. exact F.
Qed.

Lemma calls_issue_own_commands_witness :
  Forall (own_command (options (this Scenario.fresh)))
    [ "/usr/sbin/iptables -A INPUT -s 8.8.8.8 -j DROP";
      "/usr/sbin/iptables -F INPUT" ].
Proof.
  apply (calls_issue_own_commands Scenario.shell_ok Scenario.input_options
           (this Scenario.fresh) 0
           [CallAdd "8.8.8.8" (Some "DROP"); CallDelete "8.8.8.8"] eq_refl).
Defined.

(** X15. An interface recorded in a constructed controller stays
    recorded through any later sequence of calls, sweeps, faults and waits
    that holds no [deleteInterface] of that interface: time does not make
    it lapse, and neither [flushAll] nor deleting hosts or other interfaces
    removes it. *)
Theorem interface_kept_until_deleted
  (env : Env) (o : Options) (obj : IPTables) (t0 : nat)
  (before after : list Call) (iface : string) :
  constructor env o = inr obj ->
  let m := perform_all env before (boot obj t0) in
  let m' := perform_all env after m in
  MemoryCache.includes (clock m) iface (ifaceStorage (this m)) = true ->
  ~ In (CallDeleteInterface iface) after ->
  MemoryCache.includes (clock m') iface (ifaceStorage (this m')) = true.
Proof.
  intros C m m'.
  assert (H : healthy (options obj) m).
  { apply perform_all_healthy. apply (constructor_healthy env o obj t0 C). }
  unfold m'. revert H. generalize m as m0. clear m m'.
  induction after as [|c r IH]; intros m0 H K N; simpl; [exact K|].
  apply IH.
  - apply perform_healthy. exact H.
  - apply (perform_keeps_interface env (options obj)); try assumption.
    intros ->. apply N. left; reflexivity.
  - intros I. apply N. right; exact I.
Qed.

Lemma interface_kept_until_deleted_witness :
  let m' :=
    perform_all Scenario.shell_ok
      [Wait 4000; CallFlushAll; CallDelete "8.8.8.8";
       CallDeleteInterface "eth0"; Sweep]
      Scenario.populated in
  MemoryCache.includes (clock m') "eth2" (ifaceStorage (this m')) = true.
Proof.
  apply (interface_kept_until_deleted Scenario.shell_ok Scenario.input_options
           (this Scenario.fresh) 0
           [CallAdd "10.0.0.1" None; CallAdd "8.8.8.8" (Some "DROP");
            CallAddInterface "eth2" (Some "DROP")]
           [Wait 4000; CallFlushAll; CallDelete "8.8.8.8";
            CallDeleteInterface "eth0"; Sweep] "eth2" eq_refl).
  - reflexivity.
  - intros I. repeat (destruct I as [I|I]; [discriminate I|]). exact I.
Defined.

(** X16. After a [flushAll] that succeeded, the chain is empty but only
    the host store has been cleared. So [add(h, t)] issues its append for
    every host [h], known before or not, while [addInterface(i, t)] for an
    interface the (never expiring) interface store held before issues
    nothing: the two calls together issue the flush alone. *)
Theorem flushAll_then_add
  (env : Env) (host iface : string) (jumpTarget : option string)
  (m : Machine) :
  failed (flush_fate env m) = false ->
  let o := options (this m) in
  issued (snd ((flushAll env ;; add env host jumpTarget) m)) =
    issued m ++ [flush_cmd o; add_cmd o host (default_target jumpTarget)] /\
  (eternal (ifaceStorage (this m)) ->
   MemoryCache.includes (clock m) iface (ifaceStorage (this m)) = true ->
   fst ((flushAll env ;; addInterface env iface jumpTarget) m)
     = Resolved true /\
   issued (snd ((flushAll env ;; addInterface env iface jumpTarget) m)) =
     issued m ++ [flush_cmd o]).
Proof.
  intros F o. unfold bind. rewrite flushAll_run, F. cbn zeta.
  set (m1 := set_hostStorage _ _). split.
  - rewrite (add_run_unknown env host jumpTarget m1)
      by apply MemoryCacheFacts.includes_clear.
    cbn zeta.
    match goal with |- context [if failed ?r then _ else _] =>
      destruct (failed r)
    end; unfold m1; cbn [snd issued set_hostStorage advance issue this options];
      rewrite <- app_assoc; reflexivity.
  - intros E K.
    assert (K1 : MemoryCache.includes (clock m1) iface
                   (ifaceStorage (this m1)) = true).
    { rewrite <- K. apply MemoryCacheLaws.eternal_includes. exact E. }
    rewrite (addInterface_run_known env iface jumpTarget m1 K1).
    split; reflexivity.
Qed.

Lemma flushAll_then_add_witness :
  issued (snd ((flushAll Scenario.shell_ok ;;
                add Scenario.shell_ok "8.8.8.8" (Some "DROP"))
                 Scenario.populated)) =
    issued Scenario.populated ++
    [ "/usr/sbin/iptables -F INPUT";
      "/usr/sbin/iptables -A INPUT -s 8.8.8.8 -j DROP" ] /\
  issued (snd ((flushAll Scenario.shell_ok ;;
                addInterface Scenario.shell_ok "eth2" (Some "DROP"))
                 Scenario.populated)) =
    issued Scenario.populated ++ ["/usr/sbin/iptables -F INPUT"].
Proof.
  destruct (flushAll_then_add Scenario.shell_ok "8.8.8.8" "eth2"
              (Some "DROP") Scenario.populated eq_refl) as (A & B).
  split; [exact A|].
  apply B; [|reflexivity].
  split; [reflexivity | repeat constructor].
Defined.
